(** * MorphMan: the morpheme extraction cache and the morpheme database

    A shallow embedding of [morph/morphemes.py]: the [Morpheme] value with
    its identity, the memoising [getMorphemes] with the replacement rules,
    the [Location] classes and the [MorphDb] operations ([addMLs], [merge],
    [importFile], [maturity]).

    Python objects that are mutated through several references (the [set]
    objects stored in [MorphDb.db]) live in an explicit store and are named by
    their address; [Location] instances, which the source compares by object
    identity, are named by their index in an object table.  A Python [str]
    is a [string] whose characters stand for its code points, an [int] is
    a [Z]. *)

From Stdlib Require Import ZArith String List Reals Lra Lia.
From stdpp Require Import base gmap sets list strings.

Local Open Scope Z_scope.

(** ** Python exceptions and outcomes *)

Inductive exn :=
  | UnboundLocalError
  | AssertionError
  | TypeError
  | KeyError
  | IOError
  | UnicodeDecodeError.

(** The outcome of running a piece of the program.  [OutOfFuel] is an
    artefact of the embedding of recursion, never a Python behaviour; it is
    shown unreachable below. *)
Inductive outcome (A : Type) :=
  | Return (a : A)
  | Raise (e : exn)
  | OutOfFuel.
Arguments Return {A} a.
Arguments Raise {A} e.
Arguments OutOfFuel {A}.

(** ** Lexical analysis: [class Morpheme] *)

Record Morpheme := mkMorpheme {
  base : string;
  inflected : string;
  pos : string;
  subPos : string;
  read : string
}.

(** An argument of [__eq__] is any Python object. *)
Inductive pyobj :=
  | PyMorpheme (m : Morpheme)
  | PyStr (s : string)
  | PyNone.

Definition isinstance_Morpheme (o : pyobj) : option Morpheme :=
  match o with PyMorpheme m => Some m | _ => None end.

(** [Morpheme.__eq__] *)
Definition Morpheme_eq_obj (self : Morpheme) (o : pyobj) : bool :=
  match isinstance_Morpheme o with
  | None => false
  | Some o =>
      if negb (String.eqb (pos self) (pos o)) then false
      else if negb (String.eqb (subPos self) (subPos o)) then false
      else if negb (String.eqb (read self) (read o)) then false
      else if negb (String.eqb (base self) (base o)) then false
      else true
  end.

Definition Morpheme_eq (self o : Morpheme) : bool :=
  Morpheme_eq_obj self (PyMorpheme o).

(** The tuple [(self.pos, self.subPos, self.read, self.base)] that
    [__hash__] hashes. *)
Definition identity (self : Morpheme) : string * string * string * string :=
  (pos self, subPos self, read self, base self).

(** [Morpheme(mstr, mstr, 'UNKNOWN', 'UNKNOWN', mstr)], the literal morpheme
    of a replacement rule. *)
Definition literal_morpheme (mstr : string) : Morpheme :=
  mkMorpheme mstr mstr "UNKNOWN" "UNKNOWN" mstr.

Section Hashing.

(** Python's built-in [hash] on a 4-tuple of [str]. *)
Variable hash : string * string * string * string → Z.

(** [Morpheme.__hash__] *)
Definition Morpheme_hash (self : Morpheme) : Z :=
  hash (identity self).

(** ** A Python [dict] keyed by [Morpheme]

    Entries are kept in insertion order.  A probe finds the entry whose key
    has the same hash and is [__eq__] to the probed key; assigning to a key
    that is present keeps the stored key object. *)
Definition key_match (k m : Morpheme) : bool :=
  (Morpheme_hash k =? Morpheme_hash m) && Morpheme_eq k m.

Fixpoint dict_get {V : Type} (d : list (Morpheme * V)) (m : Morpheme) : option V :=
  match d with
  | [] => None
  | (k, v) :: d' => if key_match k m then Some v else dict_get d' m
  end.

Fixpoint dict_set {V : Type} (d : list (Morpheme * V)) (m : Morpheme) (v : V)
  : list (Morpheme * V) :=
  match d with
  | [] => [(m, v)]
  | (k, w) :: d' =>
      if key_match k m then (k, v) :: d' else (k, w) :: dict_set d' m v
  end.

End Hashing.

(** ** The extraction cache: [MorphCache], the counter [n], [getMorphemes] *)

(** [class Morphemizer]: the two methods [getMorphemes] calls.  The result of
    [getMorphemesFromExpr] is a Python value that [getMorphemes] tests against
    [None]. *)
Record Morphemizer := mkMorphemizer {
  getDescription : string;
  getMorphemesFromExpr : string → option (list Morpheme)
}.

(** One entry of [jcfg('ReplaceRules')]: [(filter_tags, regex, morphemes)]. *)
Definition Rule : Type := list string * string * list string.

(** The state [getMorphemes] works on: the dictionary [morphCacheDB.cache],
    the module-level counter [n], and the snapshots that [MorphCache.save]
    has dumped to [morphCacheDB.path], most recent first. *)
Record CacheState := mkCacheState {
  cache : gmap (string * string) (list Morpheme);
  n : Z;
  saved : list (gmap (string * string) (list Morpheme))
}.

(** State and exceptions: a raised exception keeps the state reached. *)
Definition M (A : Type) : Type := CacheState → outcome A * CacheState.

Definition ret {A} (a : A) : M A := λ s, (Return a, s).
Definition raise {A} (e : exn) : M A := λ s, (Raise e, s).
Definition out_of_fuel {A} : M A := λ s, (OutOfFuel, s).
Definition bind {A B} (c : M A) (k : A → M B) : M B :=
  λ s, match c s with
       | (Return a, s') => k a s'
       | (Raise e, s') => (Raise e, s')
       | (OutOfFuel, s') => (OutOfFuel, s')
       end.

Declare Scope py_scope.
Delimit Scope py_scope with py.
Notation "'let*' x ':=' c 'in' k" := (bind c (λ x, k))
  (at level 10, x name, c at level 100, k at level 200) : py_scope.
Notation "'do' c 'then' k" := (bind c (λ _, k))
  (at level 10, c at level 100, k at level 200) : py_scope.

(** [morphCacheDB.cache[morph_key] = ms] *)
Definition cache_set (morph_key : string * string) (ms : list Morpheme) : M unit :=
  λ s, (Return tt, mkCacheState (<[morph_key := ms]> (cache s)) (n s) (saved s)).

(** [n += 1] *)
Definition incr_n : M unit :=
  λ s, (Return tt, mkCacheState (cache s) (n s + 1) (saved s)).

Definition get_n : M Z := λ s, (Return (n s), s).

(** [MorphCache.save]: pickles the whole dictionary to the cache file (the
    write is taken to succeed). *)
Definition MorphCache_save : M unit :=
  λ s, (Return tt, mkCacheState (cache s) (n s) (cache s :: saved s)).

(** The local variable [ms], which an execution path may leave unassigned. *)
Inductive local :=
  | Unbound
  | Bound (ms : option (list Morpheme)).

(** [a_morphs + b_morphs + c_morphs]; [+] on [None] is a [TypeError]. *)
Definition morphs_add (a : option (list Morpheme)) (b : list Morpheme)
    (c : option (list Morpheme)) : M (list Morpheme) :=
  match a with
  | None => raise TypeError
  | Some a =>
      match c with
      | None => raise TypeError
      | Some c => ret ((a ++ b) ++ c)%list
      end
  end.

Section GetMorphemes.

(** [re.split(regex, expression, maxsplit=1, flags=re.UNICODE)] *)
Variable re_split : string → string → list string.
(** [jcfg('ReplaceRules')] *)
Variable replace_rules : option (list Rule).

Variable morphemizer : Morphemizer.

(** The [for] loop over the rules of [getMorphemes] at [expression]; [self]
    is [getMorphemes] itself, for the two recursive calls.  Falling off the
    end of the loop leaves [ms] unassigned. *)
Fixpoint scan_rules (self : string → M (option (list Morpheme)))
    (expression : string) (note_tags_set : gset string) (rules : list Rule)
    : M local :=
  match rules with
  | [] => ret Unbound
  | (filter_tags, regex, morphemes) :: rules' =>
      if negb (bool_decide (list_to_set filter_tags ⊆ note_tags_set))
      then scan_rules self expression note_tags_set rules'
      else
        let splitted_expression := re_split regex expression in
        if (length splitted_expression =? 1)%nat
        then scan_rules self expression note_tags_set rules'
        else if negb (length splitted_expression =? 2)%nat
        then raise AssertionError
        else
          let s0 := nth 0 splitted_expression EmptyString in
          let s1 := nth 1 splitted_expression EmptyString in
          if (String.length expression <=? String.length s0)%nat
          then scan_rules self expression note_tags_set rules'
          else if (String.length expression <=? String.length s1)%nat
          then scan_rules self expression note_tags_set rules'
          else
            (let* a_morphs := self s0 in
             let b_morphs := map literal_morpheme morphemes in
             let* c_morphs := self s1 in
             let* ms := morphs_add a_morphs b_morphs c_morphs in
             ret (Bound (Some ms)))%py
  end.

(** The [if]/[else] statement of [getMorphemes] that assigns [ms]: the
    [else] belongs to the [if], so the analyzer is called only when the tags
    or the rules are absent. *)
Definition assign_ms (self : string → M (option (list Morpheme)))
    (expression : string) (note_tags : option (list string)) : M local :=
  match note_tags, replace_rules with
  | Some tags, Some rules => scan_rules self expression (list_to_set tags) rules
  | _, _ => ret (Bound (getMorphemesFromExpr morphemizer expression))
  end.

(** The end of [getMorphemes]: [if ms is not None: ...] and [return ms]. *)
Definition store_and_return (morph_key : string * string) (ms : local)
    : M (option (list Morpheme)) :=
  match ms with
  | Unbound => raise UnboundLocalError
  | Bound None => ret None
  | Bound (Some l) =>
      (do cache_set morph_key l then
       do incr_n then
       let* k := get_n in
       do (if k mod 100 =? 0 then MorphCache_save else ret tt) then
       ret (Some l))%py
  end.

(** The body of [getMorphemes], with the recursive calls going to [self]. *)
Definition getMorphemes_body (self : option (list string) → string → M (option (list Morpheme)))
    (expression : string) (note_tags : option (list string))
    : M (option (list Morpheme)) :=
  λ s,
    let morph_key := (getDescription morphemizer, expression) in
    match cache s !! morph_key with
    | Some cached => (Return (Some cached), s)
    | None =>
        (let* ms := assign_ms (self note_tags) expression note_tags in
         store_and_return morph_key ms)%py s
    end.

Fixpoint getMorphemes_fuel (fuel : nat) (note_tags : option (list string))
    (expression : string) : M (option (list Morpheme)) :=
  match fuel with
  | O => out_of_fuel
  | S fuel' => getMorphemes_body (getMorphemes_fuel fuel') expression note_tags
  end.

(** [getMorphemes(morphemizer, expression, note_tags)].  Every recursive
    call is on a strictly shorter expression, so the length of the
    expression bounds the depth (the recursion limit of the interpreter is
    not modelled). *)
Definition getMorphemes (expression : string) (note_tags : option (list string))
    : M (option (list Morpheme)) :=
  getMorphemes_fuel (S (String.length expression)) note_tags expression.

End GetMorphemes.

(** ** Locations *)

(** The instances of [class Location] and of its four subclasses, each with
    the attributes its [__init__] assigns.  [Location] itself has an empty
    body, so a bare instance has neither [maturity] nor [weight]. *)
Inductive Location :=
  | Location_base
  | Nowhere (maturity weight : Z)
  | Corpus (name : string) (maturity weight : Z)
  | TextFile (filePath : string) (lineNo : Z) (maturity weight : Z)
  | AnkiDeck (noteId : Z) (fieldName fieldValue guid : string)
             (maturities : list Z) (maturity weight : Z).

#[global] Instance Location_inhabited : Inhabited Location := populate Location_base.

(** Python's [max] on a non-empty list of integers. *)
Definition py_max (x : Z) (xs : list Z) : Z := fold_left Z.max xs x.

(** [Nowhere.__init__(self, maturity=0, weight=0)]; an omitted argument is
    [None] here. *)
Definition Nowhere_init (maturity weight : option Z) : Location :=
  Nowhere (default 0 maturity) (default 0 weight).

(** [Corpus.__init__(self, name, weight)]: both arguments are required. *)
Definition Corpus_init (name : string) (weight : Z) : Location :=
  Corpus name 0 weight.

(** [TextFile.__init__(self, filePath, lineNo, maturity, weight=1)] *)
Definition TextFile_init (filePath : string) (lineNo maturity : Z)
    (weight : option Z) : Location :=
  TextFile filePath lineNo maturity (default 1 weight).

(** [AnkiDeck.__init__(self, noteId, fieldName, fieldValue, guid, maturities, weight=1)] *)
Definition AnkiDeck_init (noteId : Z) (fieldName fieldValue guid : string)
    (maturities : list Z) (weight : option Z) : Location :=
  AnkiDeck noteId fieldName fieldValue guid maturities
    (match maturities with
     | [] => 0
     | x :: xs => py_max x xs
     end)
    (default 1 weight).

(** Attribute access: [None] stands for [AttributeError]. *)
Definition attr_maturity (loc : Location) : option Z :=
  match loc with
  | Location_base => None
  | Nowhere maturity _ => Some maturity
  | Corpus _ maturity _ => Some maturity
  | TextFile _ _ maturity _ => Some maturity
  | AnkiDeck _ _ _ _ _ maturity _ => Some maturity
  end.

Definition attr_weight (loc : Location) : option Z :=
  match loc with
  | Location_base => None
  | Nowhere _ weight => Some weight
  | Corpus _ _ weight => Some weight
  | TextFile _ _ _ weight => Some weight
  | AnkiDeck _ _ _ _ _ _ weight => Some weight
  end.

(** [getattr(loc, 'maturity', d)] and [getattr(loc, 'weight', d)] *)
Definition getattr_maturity (loc : Location) (d : Z) : Z := default d (attr_maturity loc).
Definition getattr_weight (loc : Location) (d : Z) : Z := default d (attr_weight loc).

(** ** The morpheme database

    [MorphDb.db] is a [dict] from [Morpheme] to a [set] object; the value
    stored in the dictionary is the address of the set in the store, and the
    members of a set are [Location] objects, named by their index in the
    object table (the source gives [Location] no [__eq__], so set membership
    is by object identity). *)

Abbreviation MorphDict := (list (Morpheme * nat)).
Abbreviation SetStore := (gmap nat (gset nat)).
Abbreviation ObjTable := (list Location).

(** The contents of the set object at address [a]. *)
Definition set_at (h : SetStore) (a : nat) : gset nat := default ∅ (h !! a).

(** [set(locs)]: a new set object. *)
Definition new_set (content : gset nat) (h : SetStore) : nat * SetStore :=
  let a := fresh (dom h) in (a, <[a := content]> h).

(** The object an identifier names; well-formed heaps have no identifier
    outside the table. *)
Definition obj_at (objs : ObjTable) (loc : nat) : Location :=
  default Location_base (objs !! loc).

Definition sum_Z (xs : list Z) : Z := fold_right Z.add 0 xs.

Section MorphDb.

Variable hash : string * string * string * string → Z.

(** The body of the loop of [MorphDb.addMLs]: [self.db[m].add(loc)], or
    [self.db[m] = set([loc])] on [KeyError]. *)
Definition addML (db : MorphDict) (m : Morpheme) (loc : nat) (h : SetStore)
    : MorphDict * SetStore :=
  match dict_get hash db m with
  | Some a => (db, <[a := set_at h a ∪ {[loc]}]> h)
  | None =>
      let '(a, h') := new_set {[loc]} h in
      (dict_set hash db m a, h')
  end.

(** [MorphDb.addMLs] *)
Fixpoint addMLs (db : MorphDict) (mls : list (Morpheme * nat)) (h : SetStore)
    : MorphDict * SetStore :=
  match mls with
  | [] => (db, h)
  | (m, loc) :: mls' =>
      let '(db', h') := addML db m loc h in
      addMLs db' mls' h'
  end.

(** [MorphDb.addMLs1]: [locs] is the set object the caller passes. *)
Definition addMLs1 (db : MorphDict) (m : Morpheme) (locs : nat) (h : SetStore)
    : MorphDict * SetStore :=
  match dict_get hash db m with
  | None => (dict_set hash db m locs, h)
  | Some a => (db, <[a := set_at h a ∪ set_at h locs]> h)
  end.

(** [MorphDb.addMsL] *)
Definition addMsL (db : MorphDict) (ms : list Morpheme) (loc : nat) (h : SetStore)
    : MorphDict * SetStore :=
  addMLs db (map (λ m, (m, loc)) ms) h.

(** The body of the loop of [MorphDb.merge] for the item [(m, locs)] of
    [md.db.items()]; [locs] is the set object stored in [md.db]. *)
Definition merge_item (m : Morpheme) (locs : nat) (new : Z) (db : MorphDict)
    (h : SetStore) : Z * MorphDict * SetStore :=
  match dict_get hash db m with
  | Some a =>
      (new + Z.of_nat (size (set_at h locs ∖ set_at h a)),
       db,
       <[a := set_at h a ∪ set_at h locs]> h)
  | None =>
      (new + Z.of_nat (size (set_at h locs)), dict_set hash db m locs, h)
  end.

(** The loop of [MorphDb.merge], with the running value of [new] and of
    [self.db]. *)
Fixpoint merge_loop (items : MorphDict) (new : Z) (db : MorphDict) (h : SetStore)
    : Z * MorphDict * SetStore :=
  match items with
  | [] => (new, db, h)
  | (m, locs) :: items' =>
      let '(new', db', h') := merge_item m locs new db h in
      merge_loop items' new' db' h'
  end.

(** [MorphDb.merge]: the returned count, the new [self.db] and the store. *)
Definition merge (self md : MorphDict) (h : SetStore) : Z * MorphDict * SetStore :=
  merge_loop md 0 self h.

(** [MorphDb.maturity]; [math.sqrt] is the real square root (the rounding
    of the result to a binary64 float is not modelled). *)
Definition maturity (db : MorphDict) (m : Morpheme) (h : SetStore) (objs : ObjTable)
    : outcome R :=
  match dict_get hash db m with
  | None => Raise KeyError
  | Some a =>
      Return (sqrt (IZR (sum_Z (map (λ loc, getattr_maturity (obj_at objs loc) 1 ^ 2)
                                    (elements (set_at h a))))))
  end.

End MorphDb.

(** ** Importing a text file *)

(** Everything [importFile] reads and writes: the extraction cache, the store
    of set objects and the table of [Location] objects. *)
Record World := mkWorld {
  w_cache : CacheState;
  w_sets : SetStore;
  w_objs : ObjTable
}.

(** The generator [( m, TextFile(...) ) for m in ms]: one new [Location]
    object, built as [mk], per element of [ms]. *)
Fixpoint gen_pairs (ms : list Morpheme) (mk : Location) (objs : ObjTable)
    : list (Morpheme * nat) * ObjTable :=
  match ms with
  | [] => ([], objs)
  | m :: ms' =>
      let loc := length objs in
      let '(mls, objs') := gen_pairs ms' mk (objs ++ [mk]) in
      ((m, loc) :: mls, objs')
  end.

Section ImportFile.

Variable hash : string * string * string * string → Z.
Variable re_split : string → string → list string.
Variable replace_rules : option (list Rule).

(** The bytes [codecs.open(path, 'r', 'utf-8')] gives access to; [None]
    when the file cannot be opened. *)
Variable file_bytes : string → option (list Byte.byte).
(** The UTF-8 decoder; [None] when the bytes are not valid UTF-8. *)
Variable utf8_decode : list Byte.byte → option string.
(** How [readlines] cuts the decoded text into lines (line ends kept). *)
Variable splitlines : string → list string.
(** [str.strip] *)
Variable strip : string → string.

(** [f = codecs.open(path, 'r', 'utf-8'); inp = f.readlines()] *)
Definition readlines (path : string) : outcome (list string) :=
  match file_bytes path with
  | None => Raise IOError
  | Some bytes =>
      match utf8_decode bytes with
      | None => Raise UnicodeDecodeError
      | Some text => Return (splitlines text)
      end
  end.

(** The loop [for i,line in enumerate(inp)], from index [i] on. *)
Fixpoint importFile_loop (morphemizer : Morphemizer) (path : string) (maturity : Z)
    (i : nat) (inp : list string) (db : MorphDict) (w : World)
    : outcome unit * MorphDict * World :=
  match inp with
  | [] => (Return tt, db, w)
  | line :: inp' =>
      match getMorphemes re_split replace_rules morphemizer (strip line) None (w_cache w) with
      | (Return (Some ms), c) =>
          let '(mls, objs) :=
            gen_pairs ms (TextFile_init path (Z.of_nat i + 1) maturity None) (w_objs w) in
          let '(db', h) := addMLs hash db mls (w_sets w) in
          importFile_loop morphemizer path maturity (S i) inp' db' (mkWorld c h objs)
      | (Return None, c) => (Raise TypeError, db, mkWorld c (w_sets w) (w_objs w))
      | (Raise e, c) => (Raise e, db, mkWorld c (w_sets w) (w_objs w))
      | (OutOfFuel, c) => (OutOfFuel, db, mkWorld c (w_sets w) (w_objs w))
      end
  end.

(** [MorphDb.importFile] *)
Definition importFile (db : MorphDict) (path : string) (morphemizer : Morphemizer)
    (maturity : Z) (w : World) : outcome unit * MorphDict * World :=
  match readlines path with
  | Return inp => importFile_loop morphemizer path maturity 0 inp db w
  | Raise e => (Raise e, db, w)
  | OutOfFuel => (OutOfFuel, db, w)
  end.

End ImportFile.

(** ** Notions used in the statements *)

(** A rule the loop of [getMorphemes] passes over: its tags are not all on
    the note, or its regex does not match, or one of the two spans is not
    shorter than the expression. *)
Definition rule_skipped (re_split : string → string → list string)
    (note_tags_set : gset string) (expression : string) (r : Rule) : bool :=
  let '(filter_tags, regex, _) := r in
  let splitted := re_split regex expression in
  negb (bool_decide (list_to_set filter_tags ⊆ note_tags_set))
  || (length splitted =? 1)%nat
  || ((length splitted =? 2)%nat
      && ((String.length expression <=? String.length (nth 0 splitted EmptyString))%nat
          || (String.length expression <=? String.length (nth 1 splitted EmptyString))%nat)).

(** The state a stored miss leaves: the entry added, the counter one higher,
    and a snapshot of the whole cache saved when the counter reaches a
    multiple of 100. *)
Definition after_store (morph_key : string * string) (l : list Morpheme)
    (s : CacheState) : CacheState :=
  let c := <[morph_key := l]> (cache s) in
  mkCacheState c (n s + 1)
    (if (n s + 1) mod 100 =? 0 then c :: saved s else saved s).

(** What a run of [getMorphemes] may do to the cache state: entries are only
    added, each for an expression shorter than [bound]; the counter counts the
    added entries; one snapshot was saved per multiple of 100 that the counter
    reached. *)
Definition cache_grows (bound : nat) (s s' : CacheState) : Prop :=
  cache s ⊆ cache s' ∧
  (∀ k, cache s !! k = None → is_Some (cache s' !! k) →
        (String.length k.2 < bound)%nat) ∧
  n s' - n s = Z.of_nat (size (cache s')) - Z.of_nat (size (cache s)) ∧
  Z.of_nat (length (saved s')) - Z.of_nat (length (saved s)) = n s' / 100 - n s / 100.

(** The location set a database holds for a morpheme: the contents of
    [db[m]], [None] when [db[m]] is a [KeyError]. *)
Definition locations (hash : string * string * string * string → Z)
    (h : SetStore) (db : MorphDict) (m : Morpheme) : option (gset nat) :=
  set_at h <$> dict_get hash db m.

(** The location set as a set, empty for a morpheme the database lacks. *)
Definition locs_of (hash : string * string * string * string → Z)
    (h : SetStore) (db : MorphDict) (m : Morpheme) : gset nat :=
  default ∅ (locations hash h db m).

(** The (morpheme, location) pairs a database holds, the morpheme taken up
    to its identity. *)
Definition pairs (h : SetStore) (db : MorphDict)
    : gset (string * string * string * string * nat) :=
  ⋃ (map (λ '(m, a), set_map (λ loc : nat, (identity m, loc)) (set_at h a)) db).

(** The pairs of [md] that [self] does not hold, counted entry by entry. *)
Definition new_pairs (hash : string * string * string * string → Z)
    (h : SetStore) (self md : MorphDict) : Z :=
  sum_Z (map (λ '(m, a), Z.of_nat (size (set_at h a ∖ locs_of hash h self m))) md).

(** No two entries of a dictionary have matching keys. *)
Fixpoint keys_distinct (hash : string * string * string * string → Z)
    (d : MorphDict) : Prop :=
  match d with
  | [] => True
  | (k, _) :: d' => dict_get hash d' k = None ∧ keys_distinct hash d'
  end.

(** The set objects [self.merge(md)] writes to are not reachable under another
    key: a set that [self] stores under a key of [md] is stored nowhere in
    [self] or [md] under a different key. *)
Definition merge_safe (hash : string * string * string * string → Z)
    (self md : MorphDict) : Prop :=
  ∀ k k' a,
    is_Some (dict_get hash md k) →
    dict_get hash self k = Some a →
    dict_get hash self k' = Some a ∨ dict_get hash md k' = Some a →
    key_match hash k k' = true.

(** No set object is stored under two keys of the dictionary. *)
Definition unshared (hash : string * string * string * string → Z)
    (db : MorphDict) : Prop :=
  ∀ k k' a, dict_get hash db k = Some a → dict_get hash db k' = Some a →
            key_match hash k k' = true.

(** No set object is stored in both dictionaries. *)
Definition separate (hash : string * string * string * string → Z)
    (db1 db2 : MorphDict) : Prop :=
  ∀ k1 k2 a, dict_get hash db1 k1 = Some a → dict_get hash db2 k2 = Some a → False.

(** A database in a store of its own: distinct keys, no set object under two
    keys, every set object allocated. *)
Definition db_wf (hash : string * string * string * string → Z)
    (h : SetStore) (db : MorphDict) : Prop :=
  keys_distinct hash db ∧
  unshared hash db ∧
  (∀ k a, dict_get hash db k = Some a → is_Some (h !! a)).

(** [c] is a copy of [db]: a dictionary with the same location set for every
    morpheme (the same [Location] objects), held in set objects that it stores
    under one key each. *)
Definition copy_of (hash : string * string * string * string → Z)
    (h : SetStore) (c db : MorphDict) : Prop :=
  keys_distinct hash c ∧
  unshared hash c ∧
  ∀ m, locations hash h c m = locations hash h db m.

(** The locations a call [addMLs(mls)] inserts for the morpheme [m]. *)
Definition inserted (hash : string * string * string * string → Z)
    (mls : list (Morpheme * nat)) (m : Morpheme) : gset nat :=
  list_to_set (map snd (filter (λ ml, key_match hash ml.1 m = true) mls)).

(** What [getMorphemes] without tags answers for an expression: the cached
    sequence if there is one, the analyzer's answer otherwise. *)
Definition cached_or_analyzed (morphemizer : Morphemizer) (s : CacheState)
    (expression : string) : option (list Morpheme) :=
  match cache s !! (getDescription morphemizer, expression) with
  | Some cached => Some cached
  | None => getMorphemesFromExpr morphemizer expression
  end.

(** The Euclidean norm of a list of reals. *)
Definition euclidean_norm (xs : list R) : R :=
  sqrt (fold_right Rplus 0%R (map (λ x, (x * x)%R) xs)).

(** ** Instances of the parameters, used in the examples *)

Definition length_hash (t : string * string * string * string) : Z :=
  let '(a, b, c, d) := t in
  Z.of_nat (String.length a + String.length b + String.length c + String.length d).

(** [re.split] with [maxsplit=1] for a pattern without metacharacters: the
    text before and after the first occurrence of the pattern. *)
Definition split_literal (regex expression : string) : list string :=
  match String.index 0 regex expression with
  | None => [expression]
  | Some i =>
      let j := (i + String.length regex)%nat in
      [String.substring 0 i expression;
       String.substring j (String.length expression - j) expression]
  end.

(** [SpaceMorphemizer] on an expression that is empty or a single word. *)
Definition one_word_morphemizer : Morphemizer :=
  mkMorphemizer "Language with spaces"
    (λ e, Some (if String.eqb e "" then [] else [literal_morpheme e])).

(** A morphemizer whose [getMorphemesFromExpr] returns [None]. *)
Definition none_morphemizer : Morphemizer :=
  mkMorphemizer "No information availiable" (λ _, None).

Definition empty_cache : CacheState := mkCacheState ∅ 0 [].

(** Two readings of one verb that differ in [inflected] only, and a noun. *)
Definition aruku_te : Morpheme := mkMorpheme "aruku" "arui" "verb" "jiritsu" "ARUKU".
Definition aruku_masu : Morpheme := mkMorpheme "aruku" "aruki" "verb" "jiritsu" "ARUKU".
Definition inu : Morpheme := mkMorpheme "inu" "inu" "noun" "ippan" "INU".

(** A small file system: a two-line text file and a file that holds the
    single byte [0xff], which no UTF-8 text contains. *)
Definition pets_text : string :=
  String.append "inu"
    (String (Ascii.ascii_of_nat 10)
       (String.append "neko" (String (Ascii.ascii_of_nat 10) ""))).

Definition two_files (path : string) : option (list Byte.byte) :=
  if String.eqb path "pets.txt" then Some (list_byte_of_string pets_text)
  else if String.eqb path "bad.txt" then Some [Byte.xff]
  else None.

(** UTF-8 decoding of 7-bit text; a byte above [0x7f] is refused. *)
Definition decode_7bit (bytes : list Byte.byte) : option string :=
  if forallb (λ b, (Byte.to_N b <? 128)%N) bytes
  then Some (string_of_list_byte bytes)
  else None.

(** Cutting a text after each line feed, the line feed kept. *)
Fixpoint lines_from (cur : string) (text : string) : list string :=
  match text with
  | EmptyString => if String.eqb cur "" then [] else [cur]
  | String c text' =>
      if Ascii.eqb c (Ascii.ascii_of_nat 10)
      then String.append cur (String c "") :: lines_from "" text'
      else lines_from (String.append cur (String c "")) text'
  end.

Definition split_at_line_feeds (text : string) : list string := lines_from "" text.

(** [str.strip] on text whose only white space is blanks and line feeds. *)
Definition strip_blanks (s : string) : string :=
  let white c :=
    Ascii.eqb c (Ascii.ascii_of_nat 32) || Ascii.eqb c (Ascii.ascii_of_nat 10) in
  let drop := fix drop (l : list Ascii.ascii) :=
    match l with
    | c :: l' => if white c then drop l' else l
    | [] => []
    end in
  string_of_list_ascii
    (rev (drop (rev (drop (list_ascii_of_string s))))).

Definition empty_world : World := mkWorld empty_cache ∅ [].

(** * Properties *)

(** ** Morpheme identity and the dictionary *)

Lemma Morpheme_eq_identity (m o : Morpheme) :
  Morpheme_eq m o = bool_decide (identity m = identity o).
Proof.
  unfold Morpheme_eq, Morpheme_eq_obj, identity; simpl.
  destruct (String.eqb (pos m) (pos o)) eqn:E1; simpl.
  2: { apply String.eqb_neq in E1. rewrite bool_decide_eq_false_2; congruence. }
  destruct (String.eqb (subPos m) (subPos o)) eqn:E2; simpl.
  2: { apply String.eqb_neq in E2. rewrite bool_decide_eq_false_2; congruence. }
  destruct (String.eqb (read m) (read o)) eqn:E3; simpl.
  2: { apply String.eqb_neq in E3. rewrite bool_decide_eq_false_2; congruence. }
  destruct (String.eqb (base m) (base o)) eqn:E4; simpl.
  2: { apply String.eqb_neq in E4. rewrite bool_decide_eq_false_2; congruence. }
  apply String.eqb_eq in E1, E2, E3, E4.
  rewrite bool_decide_eq_true_2; congruence.
Qed.

Lemma Morpheme_eq_fields (m o : Morpheme) :
  Morpheme_eq m o = true ↔
  base m = base o ∧ pos m = pos o ∧ subPos m = subPos o ∧ read m = read o.
Proof.
  rewrite Morpheme_eq_identity, bool_decide_eq_true. unfold identity.
  split; [intros [= -> -> -> ->]; done | intros (-> & -> & -> & ->); done].
Qed.

Lemma Morpheme_eq_other_class (m : Morpheme) (s : string) :
  Morpheme_eq_obj m (PyStr s) = false ∧ Morpheme_eq_obj m PyNone = false.
Proof. done. Qed.

Section DictFacts.

Variable hash : string * string * string * string → Z.

Lemma Morpheme_eq_hash (m o : Morpheme) :
  Morpheme_eq m o = true → Morpheme_hash hash m = Morpheme_hash hash o.
Proof.
  rewrite Morpheme_eq_identity, bool_decide_eq_true.
  unfold Morpheme_hash. by intros ->.
Qed.

Lemma key_match_eq (k m : Morpheme) : key_match hash k m = Morpheme_eq k m.
Proof.
  unfold key_match. destruct (Morpheme_eq k m) eqn:E.
  - rewrite (Morpheme_eq_hash _ _ E), Z.eqb_refl. done.
  - apply andb_false_r.
Qed.

Lemma key_match_identity (k m : Morpheme) :
  key_match hash k m = bool_decide (identity k = identity m).
Proof. by rewrite key_match_eq, Morpheme_eq_identity. Qed.

Lemma key_match_true (k m : Morpheme) :
  key_match hash k m = true ↔ identity k = identity m.
Proof. by rewrite key_match_identity, bool_decide_eq_true. Qed.

Lemma key_match_false (k m : Morpheme) :
  key_match hash k m = false ↔ identity k ≠ identity m.
Proof. by rewrite key_match_identity, bool_decide_eq_false. Qed.

Lemma key_match_refl (m : Morpheme) : key_match hash m m = true.
Proof. by apply key_match_true. Qed.

Lemma dict_get_congr {V} (d : list (Morpheme * V)) (m o : Morpheme) :
  key_match hash m o = true → dict_get hash d m = dict_get hash d o.
Proof.
  intros H%key_match_true. induction d as [|[k v] d IH]; simpl; [done|].
  by rewrite !key_match_identity, H, IH.
Qed.

Lemma dict_get_set {V} (d : list (Morpheme * V)) (m o : Morpheme) (v : V) :
  dict_get hash (dict_set hash d m v) o =
  if key_match hash m o then Some v else dict_get hash d o.
Proof.
  induction d as [|[k w] d IH]; simpl; [done|].
  destruct (key_match hash k m) eqn:Ekm; simpl; [|rewrite IH];
    rewrite !key_match_identity in *;
    repeat case_bool_decide; congruence.
Qed.

Lemma dict_get_set_eq {V} (d : list (Morpheme * V)) (m : Morpheme) (v : V) :
  dict_get hash (dict_set hash d m v) m = Some v.
Proof. by rewrite dict_get_set, key_match_refl. Qed.

Lemma dict_set_absent {V} (d : list (Morpheme * V)) (m : Morpheme) (v : V) :
  dict_get hash d m = None → dict_set hash d m v = d ++ [(m, v)].
Proof.
  induction d as [|[k w] d IH]; simpl; [done|].
  destruct (key_match hash k m); [done|]. intros H. by rewrite IH.
Qed.

Lemma keys_distinct_set (d : MorphDict) (m : Morpheme) (a : nat) :
  keys_distinct hash d → keys_distinct hash (dict_set hash d m a).
Proof.
  induction d as [|[k w] d IH]; simpl; [done|].
  intros [Hk Hd]. destruct (key_match hash k m) eqn:E; simpl; [done|].
  split; [|by apply IH].
  rewrite dict_get_set. rewrite key_match_identity in *.
  repeat case_bool_decide; congruence.
Qed.

End DictFacts.

(** ** The extraction cache and the replacement rules *)

Section GetMorphemesFacts.

Variable re_split : string → string → list string.
Variable replace_rules : option (list Rule).
Variable morphemizer : Morphemizer.

Implicit Types (s : CacheState) (expression : string) (rules : list Rule).

Local Abbreviation scan := (scan_rules re_split).
Local Abbreviation run_fuel := (getMorphemes_fuel re_split replace_rules morphemizer).
Local Abbreviation run := (getMorphemes re_split replace_rules morphemizer).

Local Ltac split_rule r := destruct r as [[filter_tags regex] morphemes]; simpl.

(** The two spans of a rule that is applied are strictly shorter than the
    expression: this is what the two length tests leave. *)
Local Ltac shrink_guard :=
  repeat match goal with
  | |- context [negb ?b] => destruct b eqn:?; simpl
  | |- context [(?a =? ?b)%nat] => destruct (a =? b)%nat eqn:?; simpl
  | |- context [(?a <=? ?b)%nat] => destruct (Nat.leb_spec a b); simpl
  end.

Lemma scan_rules_skipped self expression tags rules s :
  forallb (rule_skipped re_split tags expression) rules = true →
  scan self expression tags rules s = (Return Unbound, s).
Proof.
  induction rules as [|r rules IH]; simpl; [done|].
  intros [Hr Hrs]%andb_prop. specialize (IH Hrs).
  split_rule r. unfold rule_skipped in Hr.
  destruct (bool_decide _); simpl in *; [|done].
  destruct (length (re_split regex expression) =? 1)%nat; simpl in *; [done|].
  destruct (length (re_split regex expression) =? 2)%nat; simpl in *; [|done].
  destruct (String.length expression <=? _)%nat; simpl in *; [done|].
  by rewrite Hr.
Qed.

Lemma scan_rules_terminates self expression tags rules s :
  (∀ e s', (String.length e < String.length expression)%nat →
           (self e s').1 ≠ OutOfFuel) →
  (scan self expression tags rules s).1 ≠ OutOfFuel.
Proof.
  intros Hself. induction rules as [|r rules IH]; simpl; [done|].
  split_rule r. shrink_guard; try done.
  unfold bind.
  destruct (self (nth 0 _ _) s) as [[a|e|] s1] eqn:Ea; simpl; try done.
  2: { specialize (Hself (nth 0 (re_split regex expression) "") s).
       rewrite Ea in Hself. by destruct Hself. }
  destruct (self (nth 1 _ _) s1) as [[c|e|] s2] eqn:Ec; simpl; try done.
  2: { specialize (Hself (nth 1 (re_split regex expression) "") s1).
       rewrite Ec in Hself. by destruct Hself. }
  by destruct a, c.
Qed.

Lemma store_and_return_eq morph_key ms s :
  store_and_return morph_key ms s =
  match ms with
  | Unbound => (Raise UnboundLocalError, s)
  | Bound None => (Return None, s)
  | Bound (Some l) => (Return (Some l), after_store morph_key l s)
  end.
Proof.
  destruct ms as [|[l|]]; try done.
  unfold store_and_return, after_store, bind, cache_set, incr_n, get_n; simpl.
  by destruct (_ mod 100 =? 0).
Qed.

Lemma getMorphemes_body_miss self expression tags s :
  cache s !! (getDescription morphemizer, expression) = None →
  getMorphemes_body re_split replace_rules morphemizer self expression tags s =
  match assign_ms re_split replace_rules morphemizer (self tags) expression tags s with
  | (Return ms, s1) =>
      store_and_return (getDescription morphemizer, expression) ms s1
  | (Raise e, s1) => (Raise e, s1)
  | (OutOfFuel, s1) => (OutOfFuel, s1)
  end.
Proof. intros H. unfold getMorphemes_body. by rewrite H. Qed.

Lemma assign_ms_terminates self expression tags s :
  (∀ e s', (String.length e < String.length expression)%nat →
           (self e s').1 ≠ OutOfFuel) →
  (assign_ms re_split replace_rules morphemizer self expression tags s).1 ≠ OutOfFuel.
Proof.
  intros Hself. unfold assign_ms.
  destruct tags as [tags|], replace_rules as [rules|]; try done.
  by apply scan_rules_terminates.
Qed.

Lemma getMorphemes_fuel_terminates fuel tags expression s :
  (String.length expression < fuel)%nat →
  (run_fuel fuel tags expression s).1 ≠ OutOfFuel.
Proof.
  revert expression s. induction fuel as [|fuel IH]; intros expression s Hlen; [lia|].
  simpl. destruct (cache s !! (getDescription morphemizer, expression)) eqn:Hc.
  { unfold getMorphemes_body. by rewrite Hc. }
  rewrite getMorphemes_body_miss by done.
  pose proof (assign_ms_terminates (run_fuel fuel tags) expression tags s) as Hscan.
  destruct (assign_ms _ _ _ _ _ _ s) as [[ms|e|] s1]; simpl; [|done|].
  - rewrite store_and_return_eq. by destruct ms as [|[l|]].
  - intros _. apply Hscan; [|done]. intros e s' He. apply IH. lia.
Qed.

Lemma scan_rules_ext self1 self2 expression tags rules s :
  (∀ e s', (String.length e < String.length expression)%nat →
           self1 e s' = self2 e s') →
  scan self1 expression tags rules s = scan self2 expression tags rules s.
Proof.
  intros Hself. induction rules as [|r rules IH]; simpl; [done|].
  split_rule r. shrink_guard; try done.
  unfold bind. rewrite Hself by done.
  destruct (self2 (nth 0 _ _) s) as [[a|e|] s1]; try done.
  by rewrite Hself.
Qed.

Lemma assign_ms_ext self1 self2 expression tags s :
  (∀ e s', (String.length e < String.length expression)%nat →
           self1 e s' = self2 e s') →
  assign_ms re_split replace_rules morphemizer self1 expression tags s =
  assign_ms re_split replace_rules morphemizer self2 expression tags s.
Proof.
  intros Hself. unfold assign_ms.
  destruct tags as [tags|], replace_rules as [rules|]; try done.
  by apply scan_rules_ext.
Qed.

Lemma getMorphemes_fuel_irrelevant fuel1 fuel2 tags expression s :
  (String.length expression < fuel1)%nat →
  (String.length expression < fuel2)%nat →
  run_fuel fuel1 tags expression s = run_fuel fuel2 tags expression s.
Proof.
  revert fuel2 expression s.
  induction fuel1 as [|fuel1 IH]; intros [|fuel2] expression s H1 H2; try lia.
  simpl. unfold getMorphemes_body.
  destruct (cache s !! _); [done|].
  unfold bind.
  rewrite (assign_ms_ext (run_fuel fuel1 tags) (run_fuel fuel2 tags)); [done|].
  intros e s' He. apply IH; lia.
Qed.

(** The embedding satisfies the recursion equation of the Python function:
    the fuel is never felt. *)
Lemma getMorphemes_unfold expression tags s :
  run expression tags s =
  getMorphemes_body re_split replace_rules morphemizer
    (λ tags' e, run e tags') expression tags s.
Proof.
  unfold getMorphemes at 1. simpl. unfold getMorphemes_body.
  destruct (cache s !! _); [done|].
  unfold bind.
  rewrite (assign_ms_ext (run_fuel (String.length expression) tags)
             (λ e, run e tags)); [done|].
  intros e s' He. apply getMorphemes_fuel_irrelevant; lia.
Qed.

Lemma getMorphemes_terminates expression tags s :
  (run expression tags s).1 ≠ OutOfFuel.
Proof. apply getMorphemes_fuel_terminates. lia. Qed.

Lemma getMorphemes_hit expression tags s cached :
  cache s !! (getDescription morphemizer, expression) = Some cached →
  run expression tags s = (Return (Some cached), s).
Proof.
  intros H. rewrite getMorphemes_unfold. unfold getMorphemes_body. by rewrite H.
Qed.

(** *** The cache state only grows, and the counter counts the growth *)

Lemma cache_grows_refl bound s : cache_grows bound s s.
Proof.
  repeat split; [done| |lia|lia].
  intros k Hk [v Hv]. congruence.
Qed.

Lemma cache_grows_trans bound s s1 s2 :
  cache_grows bound s s1 → cache_grows bound s1 s2 → cache_grows bound s s2.
Proof.
  intros (Hsub1 & Hnew1 & Hn1 & Hsv1) (Hsub2 & Hnew2 & Hn2 & Hsv2).
  repeat split; [by transitivity (cache s1)| |lia|lia].
  intros k Hk Hk2.
  destruct (cache s1 !! k) eqn:Hk1; [apply Hnew1; eauto|by apply Hnew2].
Qed.

Lemma cache_grows_mono bound bound' s s' :
  (bound ≤ bound')%nat → cache_grows bound s s' → cache_grows bound' s s'.
Proof.
  intros Hle (Hsub & Hnew & Hn & Hsv). repeat split; try done.
  intros k Hk Hk'. specialize (Hnew k Hk Hk'). lia.
Qed.

Lemma cache_grows_store bound morph_key l s :
  cache s !! morph_key = None →
  (String.length morph_key.2 < bound)%nat →
  cache_grows bound s (after_store morph_key l s).
Proof.
  intros Hmiss Hlen. unfold after_store, cache_grows; simpl.
  repeat split.
  - by apply insert_subseteq.
  - intros k Hk [v Hv]. destruct (decide (morph_key = k)) as [<-|Hne]; [done|].
    rewrite lookup_insert_ne in Hv by done. congruence.
  - rewrite map_size_insert_None by done. lia.
  - destruct (_ =? _) eqn:E; simpl.
    + apply Z.eqb_eq in E. Z.div_mod_to_equations. lia.
    + apply Z.eqb_neq in E. Z.div_mod_to_equations. lia.
Qed.

Lemma scan_rules_grows self expression tags rules s r s' :
  (∀ e s1 r1 s2, (String.length e < String.length expression)%nat →
     self e s1 = (r1, s2) → cache_grows (S (String.length e)) s1 s2) →
  scan self expression tags rules s = (r, s') →
  cache_grows (String.length expression) s s'.
Proof.
  intros Hself. induction rules as [|r0 rules IH]; simpl.
  { intros [= <- <-]. apply cache_grows_refl. }
  split_rule r0. shrink_guard; try done;
    try (by intros [= <- <-]; apply cache_grows_refl).
  unfold bind.
  destruct (self (nth 0 _ _) s) as [oa s1] eqn:Ea.
  apply Hself in Ea; [|done].
  eapply cache_grows_mono in Ea; [|apply Nat.le_succ_l; eassumption].
  destruct oa as [a|e|]; try by intros [= <- <-].
  destruct (self (nth 1 _ _) s1) as [oc s2] eqn:Ec.
  apply Hself in Ec; [|done].
  eapply cache_grows_mono in Ec; [|apply Nat.le_succ_l; eassumption].
  pose proof (cache_grows_trans _ _ _ _ Ea Ec) as Hac.
  destruct oc as [c|e|]; try by intros [= <- <-].
  destruct a, c; by intros [= <- <-].
Qed.

Lemma assign_ms_grows self expression tags s r s' :
  (∀ e s1 r1 s2, (String.length e < String.length expression)%nat →
     self e s1 = (r1, s2) → cache_grows (S (String.length e)) s1 s2) →
  assign_ms re_split replace_rules morphemizer self expression tags s = (r, s') →
  cache_grows (String.length expression) s s'.
Proof.
  intros Hself. unfold assign_ms.
  destruct tags as [tags|], replace_rules as [rules|];
    try (intros [= <- <-]; apply cache_grows_refl).
  by apply scan_rules_grows.
Qed.

Lemma assign_ms_keeps_miss self expression tags s r s' :
  (∀ e s1 r1 s2, (String.length e < String.length expression)%nat →
     self e s1 = (r1, s2) → cache_grows (S (String.length e)) s1 s2) →
  assign_ms re_split replace_rules morphemizer self expression tags s = (r, s') →
  cache s !! (getDescription morphemizer, expression) = None →
  cache s' !! (getDescription morphemizer, expression) = None.
Proof.
  intros Hself Hrun Hmiss.
  destruct (assign_ms_grows _ _ _ _ _ _ Hself Hrun) as (_ & Hnew & _).
  destruct (cache s' !! _) eqn:E; [|done].
  specialize (Hnew _ Hmiss (mk_is_Some _ _ E)). simpl in Hnew. lia.
Qed.

Lemma getMorphemes_fuel_grows fuel tags expression s r s' :
  run_fuel fuel tags expression s = (r, s') →
  cache_grows (S (String.length expression)) s s'.
Proof.
  revert expression s r s'.
  induction fuel as [|fuel IH]; intros expression s r s'; simpl.
  { intros [= <- <-]. apply cache_grows_refl. }
  destruct (cache s !! (getDescription morphemizer, expression)) eqn:Hc.
  { unfold getMorphemes_body. rewrite Hc. intros [= <- <-]. apply cache_grows_refl. }
  rewrite getMorphemes_body_miss by done.
  destruct (assign_ms _ _ _ _ _ _ s) as [oms s1] eqn:Ems.
  assert (Hself : ∀ e s1 r1 s2,
    (String.length e < String.length expression)%nat →
    run_fuel fuel tags e s1 = (r1, s2) → cache_grows (S (String.length e)) s1 s2)
    by (intros; by eapply IH).
  pose proof (assign_ms_grows _ _ _ _ _ _ Hself Ems) as Hgrow.
  pose proof (assign_ms_keeps_miss _ _ _ _ _ _ Hself Ems Hc) as Hmiss.
  eapply cache_grows_mono in Hgrow; [|apply Nat.le_succ_diag_r].
  destruct oms as [ms|e|]; try by intros [= <- <-].
  rewrite store_and_return_eq.
  destruct ms as [|[l|]]; intros [= <- <-]; try done.
  eapply cache_grows_trans; [done|].
  apply cache_grows_store; simpl; [done|lia].
Qed.

(** A rule that is applied assigns a list to [ms], never [None]. *)
Lemma scan_rules_binds_list self expression tags rules s s' :
  scan self expression tags rules s ≠ (Return (Bound None), s').
Proof.
  induction rules as [|r0 rules IH]; simpl; [done|].
  split_rule r0. shrink_guard; try done.
  unfold bind.
  destruct (self (nth 0 _ _) s) as [[a|e|] s1]; try done.
  destruct (self (nth 1 _ _) s1) as [[c|e|] s2]; try done.
  by destruct a, c.
Qed.

(** Without tags or without rules, a miss is the analyzer's answer, stored
    unless it is [None]. *)
Lemma getMorphemes_miss_direct expression tags s :
  cache s !! (getDescription morphemizer, expression) = None →
  tags = None ∨ replace_rules = None →
  run expression tags s =
  match getMorphemesFromExpr morphemizer expression with
  | Some l => (Return (Some l), after_store (getDescription morphemizer, expression) l s)
  | None => (Return None, s)
  end.
Proof.
  intros Hmiss Hdirect. rewrite getMorphemes_unfold, getMorphemes_body_miss by done.
  assert (assign_ms re_split replace_rules morphemizer
            (λ e, run e tags) expression tags s =
          (Return (Bound (getMorphemesFromExpr morphemizer expression)), s)) as ->.
  { unfold assign_ms. destruct Hdirect as [-> | ->]; [done|by destruct tags]. }
  rewrite store_and_return_eq. by destruct (getMorphemesFromExpr _ _).
Qed.

(** With tags and rules both present, a miss on which every rule is passed
    over leaves [ms] unassigned. *)
Lemma getMorphemes_no_rule_applies expression tags rules s :
  replace_rules = Some rules →
  cache s !! (getDescription morphemizer, expression) = None →
  forallb (rule_skipped re_split (list_to_set tags) expression) rules = true →
  run expression (Some tags) s = (Raise UnboundLocalError, s).
Proof.
  intros Hrules Hmiss Hskip.
  rewrite getMorphemes_unfold, getMorphemes_body_miss by done.
  unfold assign_ms. rewrite Hrules.
  by rewrite scan_rules_skipped.
Qed.

(** C9 (as amended). A hit returns the cached sequence and leaves the cache
    state as it is.  A miss that returns a sequence has stored it under the
    key; the counter went up by one for each entry the call added to the
    cache, this one included, and one snapshot was saved for each multiple
    of 100 that the counter reached, the last snapshot being the whole
    cache when the counter ends on a multiple of 100.  A miss that returns
    [None] stores nothing and leaves the counter alone. *)
Theorem getMorphemes_cache_contract expression tags s r s' :
  getMorphemes re_split replace_rules morphemizer expression tags s = (r, s') →
  (∀ cached, cache s !! (getDescription morphemizer, expression) = Some cached →
     r = Return (Some cached) ∧ s' = s) ∧
  (cache s !! (getDescription morphemizer, expression) = None →
     (∀ ms, r = Return (Some ms) →
        cache s' !! (getDescription morphemizer, expression) = Some ms ∧
        n s + 1 ≤ n s' ∧
        n s' - n s = Z.of_nat (size (cache s')) - Z.of_nat (size (cache s)) ∧
        Z.of_nat (length (saved s')) - Z.of_nat (length (saved s))
          = n s' / 100 - n s / 100 ∧
        (n s' mod 100 = 0 → head (saved s') = Some (cache s'))) ∧
     (r = Return None → s' = s)).
Proof.
  intros Hrun. split.
  { intros cached Hhit. rewrite (getMorphemes_hit _ _ _ _ Hhit) in Hrun.
    by injection Hrun as <- <-. }
  intros Hmiss.
  pose proof (getMorphemes_fuel_grows _ _ _ _ _ _ Hrun) as (Hsub & _ & Hn & Hsv).
  rewrite getMorphemes_unfold, getMorphemes_body_miss in Hrun by done.
  destruct (assign_ms _ _ _ _ _ _ s) as [oms s1] eqn:Ems.
  destruct oms as [ms|e|]; [|by injection Hrun as <- <-..].
  rewrite store_and_return_eq in Hrun.
  destruct ms as [|[l|]]; injection Hrun as <- <-.
  - done.
  - split; [|done]. intros ms [= <-].
    pose proof (map_subseteq_size _ _ Hsub) as Hsize.
    assert (cache s ≠ cache (after_store (getDescription morphemizer, expression) l s1)).
    { intros Heq. rewrite Heq in Hmiss. simpl in Hmiss.
      by rewrite lookup_insert_eq in Hmiss. }
    assert (size (cache s)
            < size (cache (after_store (getDescription morphemizer, expression) l s1)))%nat.
    { apply map_subset_size. by split; [|intros Hrev; destruct H; apply (anti_symm (⊆))]. }
    repeat split; try done; try lia.
    + simpl. apply lookup_insert_eq.
    + simpl. intros Hmod. apply Z.eqb_eq in Hmod. by rewrite Hmod.
  - split; [done|]. intros _.
    unfold assign_ms in Ems.
    destruct tags as [tags|], replace_rules as [rules|];
      try (by injection Ems as _ <-).
    by apply scan_rules_binds_list in Ems.
Qed.

End GetMorphemesFacts.

(** *** The replacement rules on concrete notes *)

(** C1. Tags [noun] and three rules, each passed over for one of the three
    reasons (tag [verb] missing; pattern [zzz] not found; pattern with an
    empty match, whose second span is the whole text): on the uncached
    expression [abc] the call raises [UnboundLocalError] and the analyzer is
    not consulted, although the same call without tags returns the
    analyzer's morphemes. *)
Theorem getMorphemes_no_rule_applies_unbound :
  let rules := [(["verb"], "b", ["B"]); ([], "zzz", ["Z"]); ([], "", ["E"])] in
  cache empty_cache !! (getDescription one_word_morphemizer, "abc") = None ∧
  forallb (rule_skipped split_literal (list_to_set ["noun"]) "abc") rules = true ∧
  getMorphemes split_literal (Some rules) one_word_morphemizer "abc" (Some ["noun"])
    empty_cache = (Raise UnboundLocalError, empty_cache) ∧
  (getMorphemes split_literal (Some rules) one_word_morphemizer "abc" None
    empty_cache).1 = Return (getMorphemesFromExpr one_word_morphemizer "abc").
Proof.
  intros rules.
  assert (Hskip : forallb (rule_skipped split_literal (list_to_set ["noun"]) "abc") rules
                  = true) by (vm_compute; reflexivity).
  split_and!; [done|done| |by vm_compute].
  by apply getMorphemes_no_rule_applies with rules.
Qed.

(** C3. A rule whose pattern matches with a span as long as the text ([abc]
    split on the empty pattern gives the spans [] and [abc]) is passed over
    and the call ends, but by raising [UnboundLocalError], not with the
    analyzer's result; the same holds on the empty text, which the empty
    pattern matches entirely. *)
Theorem getMorphemes_whole_span_unbound :
  let rules := [([], "", ["E"])] in
  split_literal "" "abc" = [""; "abc"] ∧
  rule_skipped split_literal ∅ "abc" ([], "", ["E"]) = true ∧
  getMorphemes split_literal (Some rules) one_word_morphemizer "abc" (Some [])
    empty_cache = (Raise UnboundLocalError, empty_cache) ∧
  split_literal "" "" = [""; ""] ∧
  getMorphemes split_literal (Some rules) one_word_morphemizer "" (Some [])
    empty_cache = (Raise UnboundLocalError, empty_cache) ∧
  getMorphemesFromExpr one_word_morphemizer "abc" = Some [literal_morpheme "abc"].
Proof.
  intros rules. split_and!; try done;
    by apply getMorphemes_no_rule_applies with rules.
Qed.

(** A pattern that matches the whole of a non-empty text leaves two empty
    spans; the rule is applied, and the recursion ends on the empty spans,
    where no rule is applied any more. *)
Lemma getMorphemes_whole_match_applied :
  let rules := [([], "abc", ["ABC"])] in
  split_literal "abc" "abc" = [""; ""] ∧
  rule_skipped split_literal ∅ "abc" ([], "abc", ["ABC"]) = false ∧
  getMorphemes split_literal (Some rules) one_word_morphemizer "abc" (Some [])
    empty_cache = (Raise UnboundLocalError, empty_cache) ∧
  getMorphemes split_literal (Some rules) one_word_morphemizer "abc" (Some [])
    (mkCacheState {[ ("Language with spaces", "") := [] ]} 0 [])
  = (Return (Some [literal_morpheme "ABC"]),
     mkCacheState {[ ("Language with spaces", "") := [];
                     ("Language with spaces", "abc") := [literal_morpheme "ABC"] ]} 1 []).
Proof. intros rules. split_and!; by vm_compute. Qed.

(** C9, as stated, fails when the analyzer answers [None]: the key is absent,
    the computed result [None] is returned, and neither is it stored nor is
    the counter incremented. *)
Lemma getMorphemes_None_not_stored :
  let key := (getDescription none_morphemizer, "abc") in
  let run := getMorphemes split_literal None none_morphemizer "abc" None empty_cache in
  cache empty_cache !! key = None ∧
  run.1 = Return None ∧
  cache run.2 !! key = None ∧
  n run.2 = n empty_cache.
Proof. by vm_compute. Qed.

(** The hundredth stored miss: the counter stands at 99, the expression is
    not cached, and the analyzer answers with one morpheme. *)
Lemma getMorphemes_cache_contract_witness :
  let s := mkCacheState ∅ 99 [] in
  let l := [literal_morpheme "abc"] in
  let s' := mkCacheState {[ ("Language with spaces", "abc") := l ]} 100
              [ {[ ("Language with spaces", "abc") := l ]} ] in
  getMorphemes split_literal None one_word_morphemizer "abc" None s = (Return (Some l), s') ∧
  cache s' !! ("Language with spaces", "abc") = Some l ∧
  n s' = n s + 1 ∧
  head (saved s') = Some (cache s').
Proof.
  intros s l s'.
  assert (Hrun : getMorphemes split_literal None one_word_morphemizer "abc" None s
                 = (Return (Some l), s')) by (by vm_compute).
  destruct (getMorphemes_cache_contract _ _ _ _ _ _ _ _ Hrun) as [_ Hmiss].
  destruct Hmiss as [Hstored _]; [by vm_compute|].
  destruct (Hstored l eq_refl) as (Hkey & _ & _ & _ & Hsave).
  split_and!; [done|done|by vm_compute|].
  apply Hsave. by vm_compute.
Defined.

(** ** Locations *)

Lemma py_max_ge (x : Z) (xs : list Z) : x ≤ py_max x xs.
Proof.
  unfold py_max. revert x. induction xs as [|y xs IH]; intros x; simpl; [lia|].
  specialize (IH (Z.max x y)). lia.
Qed.

Lemma py_max_upper (x : Z) (xs : list Z) :
  Forall (λ y, y ≤ py_max x xs) (x :: xs).
Proof.
  constructor; [apply py_max_ge|].
  unfold py_max. revert x. induction xs as [|y xs IH]; intros x; simpl; [done|].
  constructor; [|apply IH].
  pose proof (py_max_ge (Z.max x y) xs) as H. unfold py_max in H. lia.
Qed.

Lemma py_max_elem (x : Z) (xs : list Z) : py_max x xs ∈ x :: xs.
Proof.
  unfold py_max. revert x. induction xs as [|y xs IH]; intros x; simpl.
  { apply list_elem_of_here. }
  specialize (IH (Z.max x y)).
  apply elem_of_cons in IH as [IH|IH].
  - rewrite IH. destruct (Z.max_spec x y) as [[_ ->]|[_ ->]].
    + apply list_elem_of_further, list_elem_of_here.
    + apply list_elem_of_here.
  - by do 2 apply list_elem_of_further.
Qed.

(** C7, as stated, fails for [Nowhere]: built without a [weight] argument it
    has weight 0. *)
Lemma Nowhere_default_weight :
  attr_weight (Nowhere_init None None) = Some 0 ∧
  attr_weight (Nowhere_init None None) ≠ Some 1.
Proof. done. Qed.

(** C7 (as amended). Each of the four subclasses of [Location] sets
    [maturity] and [weight]; [TextFile] and [AnkiDeck] built without a
    [weight] argument have weight 1, [Nowhere] built without one has weight
    0 ([Corpus] has no default); the maturity of an [AnkiDeck] is 0 for an
    empty list of card maturities and otherwise the greatest element of the
    list. *)
Theorem Location_maturity_weight :
  (∀ maturity weight,
     is_Some (attr_maturity (Nowhere_init maturity weight)) ∧
     is_Some (attr_weight (Nowhere_init maturity weight))) ∧
  (∀ name weight,
     attr_maturity (Corpus_init name weight) = Some 0 ∧
     attr_weight (Corpus_init name weight) = Some weight) ∧
  (∀ filePath lineNo maturity weight,
     attr_maturity (TextFile_init filePath lineNo maturity weight) = Some maturity ∧
     is_Some (attr_weight (TextFile_init filePath lineNo maturity weight))) ∧
  (∀ noteId fieldName fieldValue guid maturities weight,
     is_Some (attr_maturity
                (AnkiDeck_init noteId fieldName fieldValue guid maturities weight)) ∧
     is_Some (attr_weight
                (AnkiDeck_init noteId fieldName fieldValue guid maturities weight))) ∧
  (∀ filePath lineNo maturity,
     attr_weight (TextFile_init filePath lineNo maturity None) = Some 1) ∧
  (∀ noteId fieldName fieldValue guid maturities,
     attr_weight (AnkiDeck_init noteId fieldName fieldValue guid maturities None)
     = Some 1) ∧
  (∀ maturity, attr_weight (Nowhere_init maturity None) = Some 0) ∧
  (∀ noteId fieldName fieldValue guid weight,
     attr_maturity (AnkiDeck_init noteId fieldName fieldValue guid [] weight) = Some 0) ∧
  (∀ noteId fieldName fieldValue guid x xs weight,
     ∃ mx, attr_maturity (AnkiDeck_init noteId fieldName fieldValue guid (x :: xs) weight)
           = Some mx ∧
           mx ∈ x :: xs ∧ Forall (λ y, y ≤ mx) (x :: xs)).
Proof.
  split_and!; try done; try (by intros; simpl; eauto).
  intros noteId fieldName fieldValue guid x xs weight.
  exists (py_max x xs). split_and!; [done|apply py_max_elem|apply py_max_upper].
Qed.

(** ** The morpheme database *)

Lemma set_at_insert_eq (h : SetStore) (a : nat) (X : gset nat) :
  set_at (<[a := X]> h) a = X.
Proof. unfold set_at. by rewrite lookup_insert_eq. Qed.

Lemma set_at_insert_ne (h : SetStore) (a b : nat) (X : gset nat) :
  a ≠ b → set_at (<[a := X]> h) b = set_at h b.
Proof. intros. unfold set_at. by rewrite lookup_insert_ne. Qed.

Lemma set_at_unallocated (h : SetStore) (a : nat) : h !! a = None → set_at h a = ∅.
Proof. intros H. unfold set_at. by rewrite H. Qed.

Lemma new_set_fresh (h : SetStore) (X : gset nat) : h !! (new_set X h).1 = None.
Proof. simpl. apply not_elem_of_dom, is_fresh. Qed.

Section MorphDbFacts.

Variable hash : string * string * string * string → Z.

Implicit Types (db self md : MorphDict) (h : SetStore) (m k : Morpheme).

Local Abbreviation get := (dict_get hash).
Local Abbreviation locs := (locations hash).

Local Ltac keys :=
  rewrite ?key_match_identity in *; repeat case_bool_decide; try congruence.

Lemma locations_congr h db m k :
  key_match hash m k = true → locs h db m = locs h db k.
Proof. intros H. unfold locations. by rewrite (dict_get_congr hash db m k H). Qed.

Lemma keys_distinct_lookup db k a :
  keys_distinct hash db → (k, a) ∈ db → get db k = Some a.
Proof.
  induction db as [|[k0 a0] db IH]; simpl; [by intros _ ?%elem_of_nil|].
  intros [Hk Hd] [[= -> ->]|Hin]%elem_of_cons.
  - by rewrite key_match_refl.
  - specialize (IH Hd Hin). destruct (key_match hash k0 k) eqn:E; [|done].
    rewrite (dict_get_congr hash db k0 k E) in Hk. congruence.
Qed.

Lemma dict_get_elem db k a :
  get db k = Some a → ∃ k0, (k0, a) ∈ db ∧ key_match hash k0 k = true.
Proof.
  induction db as [|[k0 a0] db IH]; simpl; [done|].
  destruct (key_match hash k0 k) eqn:E.
  - intros [= ->]. exists k0. split; [apply list_elem_of_here|done].
  - intros (k1 & Hin & Hk)%IH. exists k1. split; [by apply list_elem_of_further|done].
Qed.

(** *** [addMLs] *)

(** What one insertion does to the location set of every morpheme. *)
Lemma addML_locs db k loc h db' h' m :
  db_wf hash h db →
  addML hash db k loc h = (db', h') →
  db_wf hash h' db' ∧
  locs_of hash h' db' m =
    locs_of hash h db m ∪ (if key_match hash k m then {[loc]} else ∅) ∧
  (is_Some (get db' m) ↔ is_Some (get db m) ∨ key_match hash k m = true).
Proof.
  intros (Hkeys & Hshare & Halloc). unfold addML, locs_of, locations.
  destruct (get db k) as [a|] eqn:Hk.
  - intros [= <- <-]. split_and!.
    + split_and!; [done|done|].
      intros k0 a0 H0. destruct (decide (a = a0)) as [<-|Hne].
      * rewrite lookup_insert_eq. eauto.
      * rewrite lookup_insert_ne by done. eauto.
    + destruct (key_match hash k m) eqn:E.
      * rewrite <- (dict_get_congr hash db k m E), Hk. simpl.
        by rewrite set_at_insert_eq.
      * destruct (get db m) as [b|] eqn:Hm; simpl; [|set_solver].
        rewrite set_at_insert_ne; [set_solver|].
        intros <-. specialize (Hshare _ _ _ Hk Hm). congruence.
    + destruct (key_match hash k m) eqn:E; [|naive_solver].
      rewrite <- (dict_get_congr hash db k m E), Hk. naive_solver.
  - pose proof (new_set_fresh h {[loc]}) as Hfresh. simpl in *.
    intros [= <- <-]. split_and!.
    + split_and!.
      * by apply keys_distinct_set.
      * intros k1 k2 a. rewrite !dict_get_set.
        destruct (key_match hash k k1) eqn:E1, (key_match hash k k2) eqn:E2.
        -- intros _ _. keys.
        -- intros [= <-] H2. apply Halloc in H2 as [? H2]. congruence.
        -- intros H1 [= <-]. apply Halloc in H1 as [? H1]. congruence.
        -- apply Hshare.
      * intros k0 a0. rewrite dict_get_set.
        destruct (key_match hash k k0).
        -- intros [= <-]. rewrite lookup_insert_eq. eauto.
        -- intros H0. destruct (Halloc _ _ H0) as [X HX].
           rewrite lookup_insert_ne by congruence. eauto.
    + rewrite dict_get_set. destruct (key_match hash k m) eqn:E; simpl.
      * rewrite set_at_insert_eq.
        rewrite <- (dict_get_congr hash db k m E), Hk. simpl. set_solver.
      * destruct (get db m) as [b|] eqn:Hm; simpl; [|set_solver].
        rewrite set_at_insert_ne; [set_solver|].
        destruct (Halloc _ _ Hm) as [? Hb]. congruence.
    + rewrite dict_get_set. destruct (key_match hash k m) eqn:E; naive_solver.
Qed.

Lemma inserted_cons k loc mls m :
  inserted hash ((k, loc) :: mls) m =
  (if key_match hash k m then {[loc]} else ∅) ∪ inserted hash mls m.
Proof.
  unfold inserted. rewrite filter_cons. simpl.
  destruct (decide _) as [->|Hne]; simpl; [done|].
  destruct (key_match hash k m); [done|set_solver].
Qed.

Lemma elem_of_inserted mls m loc :
  loc ∈ inserted hash mls m ↔ ∃ k, (k, loc) ∈ mls ∧ identity k = identity m.
Proof.
  unfold inserted. rewrite elem_of_list_to_set, list_elem_of_fmap. split.
  - intros ([k l] & -> & [Hk Hin]%list_elem_of_filter). simpl in *.
    exists k. by rewrite <- (key_match_true hash).
  - intros (k & Hin & Hk). exists (k, loc). split; [done|].
    apply list_elem_of_filter. split; [|done]. simpl. by apply key_match_true.
Qed.

(** [addMLs] adds to the location set of each morpheme the locations that
    are inserted for a morpheme with its identity, and nothing else. *)
Lemma addMLs_locs mls : ∀ db h db' h' m,
  db_wf hash h db →
  addMLs hash db mls h = (db', h') →
  db_wf hash h' db' ∧
  locs_of hash h' db' m = locs_of hash h db m ∪ inserted hash mls m ∧
  (is_Some (get db' m) ↔
   is_Some (get db m) ∨ ∃ k loc, (k, loc) ∈ mls ∧ identity k = identity m).
Proof.
  induction mls as [|[k loc] mls IH]; intros db h db' h' m Hwf; simpl.
  { intros [= <- <-]. split_and!; [done|unfold inserted; set_solver|].
    split; [eauto|]. intros [?|(? & ? & []%elem_of_nil & _)]; done. }
  destruct (addML hash db k loc h) as [db1 h1] eqn:E1. intros Hrest.
  destruct (addML_locs _ _ _ _ _ _ m Hwf E1) as (Hwf1 & Hl1 & Hs1).
  destruct (IH _ _ _ _ m Hwf1 Hrest) as (Hwf' & Hl' & Hs').
  split_and!; [done| |].
  - rewrite Hl', Hl1, inserted_cons. set_solver.
  - rewrite Hs', Hs1, key_match_true. split.
    + intros [[?|?]|(k0 & l0 & Hin & Hk0)]; eauto.
      * right. exists k, loc. split; [apply list_elem_of_here|done].
      * right. exists k0, l0. split; [by apply list_elem_of_further|done].
    + intros [?|(k0 & l0 & [[= -> ->]|Hin]%elem_of_cons & Hk0)]; eauto 8.
Qed.

(** *** [merge] *)

Lemma locations_cons h k a db m :
  locs h ((k, a) :: db) m =
  if key_match hash k m then Some (set_at h a) else locs h db m.
Proof. unfold locations; simpl. by destruct (key_match hash k m). Qed.

Lemma locations_set h db k a m :
  locs h (dict_set hash db k a) m =
  if key_match hash k m then Some (set_at h a) else locs h db m.
Proof. unfold locations. rewrite dict_get_set. by destruct (key_match hash k m). Qed.

Lemma keys_distinct_head k a rest m :
  keys_distinct hash ((k, a) :: rest) →
  is_Some (get rest m) → key_match hash k m = false.
Proof.
  intros [Hk _] [x Hm]. destruct (key_match hash k m) eqn:E; [|done].
  rewrite (dict_get_congr hash rest k m E) in Hk. congruence.
Qed.

(** The dictionary after the loop: the keys of [self.db] keep their set
    object, the other keys of [md.db] come with the set object of [md.db]. *)
Lemma merge_loop_dict items : ∀ new db h new' db' h' m,
  merge_loop hash items new db h = (new', db', h') →
  get db' m = match get db m with Some a => Some a | None => get items m end.
Proof.
  induction items as [|[k a0] rest IH]; intros new db h new' db' h' m; simpl.
  { intros [= _ <- _]. by destruct (get db m). }
  unfold merge_item. destruct (get db k) as [a|] eqn:Hk; intros Hrest.
  - rewrite (IH _ _ _ _ _ _ m Hrest).
    destruct (get db m) eqn:Hm; [done|].
    destruct (key_match hash k m) eqn:E; [|done].
    rewrite (dict_get_congr hash db k m E) in Hk. congruence.
  - rewrite (IH _ _ _ _ _ _ m Hrest), dict_get_set.
    destruct (key_match hash k m) eqn:E.
    + by rewrite <- (dict_get_congr hash db k m E), Hk.
    + done.
Qed.

(** A set object is left as it was unless [self.db] holds it under a key
    for which [md.db] holds another object. *)
Lemma merge_loop_frame items : ∀ new db h new' db' h' x,
  keys_distinct hash items →
  merge_loop hash items new db h = (new', db', h') →
  (∀ k y, get items k = Some y → get db k = Some x → y = x) →
  set_at h' x = set_at h x.
Proof.
  induction items as [|[k a0] rest IH]; intros new db h new' db' h' x Hkeys; simpl.
  { by intros [= _ _ <-]. }
  unfold merge_item. destruct (get db k) as [a|] eqn:Hk; intros Hrest Hx.
  - rewrite (IH _ _ _ _ _ _ x (proj2 Hkeys) Hrest).
    + destruct (decide (a = x)) as [->|Hne]; [|by apply set_at_insert_ne].
      rewrite set_at_insert_eq.
      rewrite (Hx k a0); [set_solver| |done]. simpl. by rewrite key_match_refl.
    + intros k' y Hy. apply Hx. simpl.
      by rewrite (keys_distinct_head _ _ _ _ Hkeys (mk_is_Some _ _ Hy)).
  - apply (IH _ _ _ _ _ _ x (proj2 Hkeys) Hrest).
    intros k' y Hy. rewrite dict_get_set.
    pose proof (keys_distinct_head _ _ _ _ Hkeys (mk_is_Some _ _ Hy)) as E.
    rewrite E. apply Hx. simpl. by rewrite E.
Qed.

Lemma merge_safe_tail k a0 rest new db h new1 db1 h1 :
  keys_distinct hash ((k, a0) :: rest) →
  merge_safe hash db ((k, a0) :: rest) →
  merge_item hash k a0 new db h = (new1, db1, h1) →
  merge_safe hash db1 rest.
Proof.
  intros Hkeys Hsafe. unfold merge_item.
  destruct (get db k) as [a|] eqn:Hk; intros [= _ <- _].
  - intros k1 k2 x H1 H1x H2. apply (Hsafe k1 k2 x); [|done|].
    + simpl. destruct (key_match hash k k1); eauto.
    + destruct H2 as [H2|H2]; [by left|right]. simpl.
      by rewrite (keys_distinct_head _ _ _ _ Hkeys (mk_is_Some _ _ H2)).
  - intros k1 k2 x H1. rewrite !dict_get_set.
    pose proof (keys_distinct_head _ _ _ _ Hkeys H1) as E1. rewrite E1.
    intros H1x H2.
    assert (is_Some (get ((k, a0) :: rest) k1)) as Hs1.
    { simpl. by rewrite E1. }
    destruct H2 as [H2|H2].
    + destruct (key_match hash k k2) eqn:E2.
      * injection H2 as <-.
        assert (key_match hash k1 k = true) as E.
        { apply (Hsafe k1 k a0); [done|done|]. right. simpl.
          by rewrite key_match_refl. }
        keys.
      * apply (Hsafe k1 k2 x); eauto.
    + apply (Hsafe k1 k2 x); [done|done|]. right. simpl.
      by rewrite (keys_distinct_head _ _ _ _ Hkeys (mk_is_Some _ _ H2)).
Qed.

(** What one item does: to the entry of its own key, and to the rest. *)
Lemma merge_item_step k a0 rest new db h new1 db1 h1 :
  keys_distinct hash ((k, a0) :: rest) →
  merge_safe hash db ((k, a0) :: rest) →
  merge_item hash k a0 new db h = (new1, db1, h1) →
  locs h1 db1 k = union_with (λ X Y, Some (X ∪ Y)) (locs h db k) (Some (set_at h a0)) ∧
  new1 = new + Z.of_nat (size (set_at h a0 ∖ locs_of hash h db k)) ∧
  (∀ m, key_match hash k m = false → locs h1 db1 m = locs h db m) ∧
  (∀ m x, get rest m = Some x → set_at h1 x = set_at h x).
Proof.
  intros Hkeys Hsafe. unfold merge_item, locs_of, locations.
  assert (Hhead : get ((k, a0) :: rest) k = Some a0).
  { simpl. by rewrite key_match_refl. }
  destruct (get db k) as [a|] eqn:Hk; intros [= <- <- <-]; simpl.
  - split_and!.
    + by rewrite Hk; simpl; rewrite set_at_insert_eq.
    + done.
    + intros m E. destruct (get db m) as [x|] eqn:Hm; simpl; [|done].
      rewrite set_at_insert_ne; [done|]. intros <-.
      assert (key_match hash k m = true) by (apply (Hsafe k m a); eauto).
      congruence.
    + intros m x Hm. apply set_at_insert_ne. intros <-.
      pose proof (keys_distinct_head _ _ _ _ Hkeys (mk_is_Some _ _ Hm)) as E.
      assert (key_match hash k m = true); [|congruence].
      apply (Hsafe k m a); eauto. right. simpl. by rewrite E.
  - split_and!.
    + by rewrite dict_get_set, key_match_refl.
    + do 3 f_equal. set_solver.
    + intros m E. by rewrite dict_get_set, E.
    + done.
Qed.

Lemma new_pairs_cons h db k a0 rest :
  new_pairs hash h db ((k, a0) :: rest) =
  Z.of_nat (size (set_at h a0 ∖ locs_of hash h db k)) + new_pairs hash h db rest.
Proof. done. Qed.

Lemma new_pairs_ext h h1 db db1 rest :
  (∀ m x, (m, x) ∈ rest →
     set_at h1 x = set_at h x ∧ locs_of hash h1 db1 m = locs_of hash h db m) →
  new_pairs hash h1 db1 rest = new_pairs hash h db rest.
Proof.
  induction rest as [|[m x] rest IH]; intros H; [done|].
  rewrite !new_pairs_cons.
  destruct (H m x) as [-> ->]; [apply list_elem_of_here|].
  rewrite IH; [done|]. intros m' x' Hin. apply H. by apply list_elem_of_further.
Qed.

(** The loop of [merge]: the location sets after it, and the count. *)
Lemma merge_loop_spec items : ∀ new db h new' db' h',
  keys_distinct hash items →
  merge_safe hash db items →
  merge_loop hash items new db h = (new', db', h') →
  (∀ m, locs h' db' m =
        union_with (λ X Y, Some (X ∪ Y)) (locs h db m) (locs h items m)) ∧
  new' = new + new_pairs hash h db items.
Proof.
  induction items as [|[k a0] rest IH]; intros new db h new' db' h' Hkeys Hsafe; simpl.
  { intros [= <- <- <-]. split; [|unfold new_pairs; simpl; lia].
    intros m. unfold locations; simpl. by destruct (get db m). }
  destruct (merge_item hash k a0 new db h) as [[new1 db1] h1] eqn:E1. intros Hrest.
  destruct (merge_item_step _ _ _ _ _ _ _ _ _ Hkeys Hsafe E1)
    as (Hhead & Hnew & Hother & Hsets).
  pose proof (merge_safe_tail _ _ _ _ _ _ _ _ _ Hkeys Hsafe E1) as Hsafe1.
  destruct (IH _ _ _ _ _ _ (proj2 Hkeys) Hsafe1 Hrest) as [Hlocs Hcount].
  split.
  - intros m. rewrite Hlocs, locations_cons.
    destruct (key_match hash k m) eqn:E.
    + rewrite <- !(locations_congr _ _ k m E), Hhead.
      assert (locs h1 rest k = None) as ->.
      { unfold locations. by destruct Hkeys as [-> _]. }
      by destruct (locs h db k).
    + rewrite (Hother m E). f_equal.
      unfold locations. destruct (get rest m) as [x|] eqn:Hm; simpl; [|done].
      by rewrite (Hsets m x Hm).
  - rewrite Hcount, Hnew, new_pairs_cons.
    rewrite (new_pairs_ext h h1 db db1 rest); [lia|].
    intros m x Hin.
    pose proof (keys_distinct_lookup _ _ _ (proj2 Hkeys) Hin) as Hm.
    split; [by apply (Hsets m)|].
    unfold locs_of. rewrite Hother; [done|].
    by apply (keys_distinct_head _ _ _ _ Hkeys (mk_is_Some _ _ Hm)).
Qed.

(** *** Counting the new pairs *)

Lemma size_tagged (t : string * string * string * string) (X : gset nat) :
  size (set_map (D := gset (string * string * string * string * nat))
          (λ loc : nat, (t, loc)) X) = size X.
Proof.
  induction X as [|x X Hx IH] using set_ind_L.
  { by rewrite set_map_empty, !size_empty. }
  rewrite set_map_union_L, set_map_singleton_L.
  rewrite !size_union, !size_singleton, IH; [done|set_solver|].
  apply disjoint_singleton_l. rewrite elem_of_map. intros (y & [= ->] & Hy). done.
Qed.

Lemma elem_of_pairs h db t loc :
  (t, loc) ∈ pairs h db ↔ ∃ k a, (k, a) ∈ db ∧ identity k = t ∧ loc ∈ set_at h a.
Proof.
  unfold pairs. rewrite elem_of_union_list. split.
  - intros (X & HX & Hin). apply list_elem_of_fmap in HX as ([k a] & -> & Hka).
    apply elem_of_map in Hin as (l & [= -> ->] & Hl). eauto.
  - intros (k & a & Hka & <- & Hl).
    exists (set_map (λ loc : nat, (identity k, loc)) (set_at h a)). split.
    + apply list_elem_of_fmap. by exists (k, a).
    + apply elem_of_map. eauto.
Qed.

Lemma elem_of_pairs_locs h db m loc :
  keys_distinct hash db →
  (identity m, loc) ∈ pairs h db ↔ loc ∈ locs_of hash h db m.
Proof.
  intros Hkeys. rewrite elem_of_pairs. unfold locs_of, locations. split.
  - intros (k & a & Hka & Hk & Hl).
    apply (keys_distinct_lookup _ _ _ Hkeys) in Hka.
    rewrite <- (dict_get_congr hash db k m) by (by apply key_match_true).
    by rewrite Hka.
  - destruct (get db m) as [a|] eqn:Hm; simpl; [|set_solver].
    intros Hl. apply dict_get_elem in Hm as (k & Hka & Hk%key_match_true). eauto.
Qed.

Lemma pairs_cons h k a db :
  pairs h ((k, a) :: db) =
  set_map (λ loc : nat, (identity k, loc)) (set_at h a) ∪ pairs h db.
Proof. done. Qed.

(** The count [merge] returns is the number of pairs of [md] that are not
    pairs of [self]. *)
Lemma new_pairs_size h self md :
  keys_distinct hash self → keys_distinct hash md →
  new_pairs hash h self md = Z.of_nat (size (pairs h md ∖ pairs h self)).
Proof.
  intros Hself. induction md as [|[k a] rest IH]; intros Hkeys.
  { unfold new_pairs, pairs; simpl. by rewrite difference_disjoint_L, size_empty. }
  rewrite new_pairs_cons, (IH (proj2 Hkeys)), pairs_cons.
  assert (set_map (λ loc : nat, (identity k, loc)) (set_at h a) ∖ pairs h self
          = set_map (D := gset (string * string * string * string * nat))
              (λ loc : nat, (identity k, loc)) (set_at h a ∖ locs_of hash h self k))
    as Hhead.
  { apply set_eq. intros [t l].
    rewrite elem_of_difference, !elem_of_map. split.
    - intros [(x & [= -> ->] & Hx) Hnot]. exists x. split; [done|].
      apply elem_of_difference. split; [done|].
      by rewrite <- elem_of_pairs_locs.
    - intros (x & [= -> ->] & [Hx Hnot]%elem_of_difference). split; [eauto|].
      by rewrite elem_of_pairs_locs. }
  replace ((set_map (λ loc : nat, (identity k, loc)) (set_at h a) ∪ pairs h rest)
             ∖ pairs h self)
    with (set_map (λ loc : nat, (identity k, loc)) (set_at h a) ∖ pairs h self
          ∪ pairs h rest ∖ pairs h self) by set_solver.
  rewrite (size_union (set_map (λ loc : nat, (identity k, loc)) (set_at h a)
                         ∖ pairs h self) (pairs h rest ∖ pairs h self)).
  - rewrite Hhead, size_tagged. lia.
  - intros [t l] [Ha _]%elem_of_difference [Hr _]%elem_of_difference.
    apply elem_of_map in Ha as (x & [= -> ->] & Hx).
    apply elem_of_pairs in Hr as (k' & a' & Hin & Hk' & _).
    apply (keys_distinct_lookup _ _ _ (proj2 Hkeys)) in Hin.
    pose proof (keys_distinct_head _ _ _ _ Hkeys (mk_is_Some _ _ Hin)) as E.
    apply key_match_false in E. congruence.
Qed.

(** *** The claims on [merge] and [addMLs] *)

Lemma merge_safe_separate self md :
  unshared hash self → separate hash self md → merge_safe hash self md.
Proof.
  intros Hun Hsep k k' a _ Hk [Hk'|Hk'].
  - by apply (Hun k k' a).
  - destruct (Hsep k k' a Hk Hk').
Qed.

Lemma merge_frame_locs self md h new self' h' db :
  keys_distinct hash md →
  merge hash self md h = (new, self', h') →
  separate hash self db →
  ∀ m, locs h' db m = locs h db m.
Proof.
  intros Hkeys Hrun Hsep m. unfold locations.
  destruct (get db m) as [x|] eqn:Hm; simpl; [|done]. f_equal.
  apply (merge_loop_frame _ _ _ _ _ _ _ x Hkeys Hrun).
  intros k y _ Hk. destruct (Hsep k m x Hk Hm).
Qed.

Lemma separate_merge self md h new self' h' db :
  merge hash self md h = (new, self', h') →
  separate hash db self → separate hash db md → separate hash db self'.
Proof.
  intros Hrun Hself Hmd k1 k2 a H1 H2.
  rewrite (merge_loop_dict _ _ _ _ _ _ _ k2 Hrun) in H2.
  destruct (get self k2) eqn:E; [injection H2 as ->; eauto|eauto].
Qed.

Lemma single_key db m a :
  keys_distinct hash db → get db m = Some a →
  length (filter (λ e, key_match hash e.1 m = true) db) = 1%nat.
Proof.
  assert (Hnone : ∀ d, get d m = None →
            filter (λ e : Morpheme * nat, key_match hash e.1 m = true) d = []).
  { induction d as [|[k x] d IH]; simpl; [done|].
    rewrite filter_cons. simpl.
    destruct (key_match hash k m) eqn:E; [done|]. intros Hd.
    rewrite decide_False by done. by apply IH. }
  induction db as [|[k x] db IH]; simpl; [done|].
  intros [Hk Hd]. rewrite filter_cons. simpl.
  destruct (key_match hash k m) eqn:E.
  - intros _. rewrite decide_True by done. simpl.
    rewrite Hnone; [done|]. by rewrite <- (dict_get_congr hash db k m E).
  - intros Hm. rewrite decide_False by done. by apply IH.
Qed.

Lemma merge_adds_new_pairs_aux self md h new self' h' :
  keys_distinct hash md →
  merge_safe hash self md →
  merge hash self md h = (new, self', h') →
  (∀ m, locs h' self' m =
        union_with (λ X Y, Some (X ∪ Y)) (locs h self m) (locs h md m)) ∧
  new = new_pairs hash h self md.
Proof.
  intros Hmd Hsafe Hrun. unfold merge in Hrun.
  destruct (merge_loop_spec _ _ _ _ _ _ _ Hmd Hsafe Hrun) as [Hlocs Hnew].
  split; [done|lia].
Qed.


(** C4. With [cA] a copy of [A] and [cB] a copy of [B], each in set
    objects shared with no other database, [cA.merge(B)] followed by
    [cB.merge(A)] leaves in [cA] and in [cB] the same location set for
    every morpheme: the union of the location sets of [A] and [B]. *)
Theorem merge_commutative A B cA cB h n1 r1 h1 n2 r2 h2 :
  keys_distinct hash A → keys_distinct hash B →
  copy_of hash h cA A → copy_of hash h cB B →
  separate hash cA A → separate hash cA B → separate hash cA cB →
  separate hash cB A → separate hash cB B →
  merge hash cA B h = (n1, r1, h1) →
  merge hash cB A h1 = (n2, r2, h2) →
  ∀ m, locations hash h2 r1 m = locations hash h2 r2 m ∧
       locations hash h2 r2 m =
         union_with (λ X Y, Some (X ∪ Y)) (locations hash h A m) (locations hash h B m).
Proof.
  intros HA HB (HcA & HuA & HvA) (HcB & HuB & HvB) HcAA HcAB HcAcB HcBA HcBB Hrun1 Hrun2.
  assert (Hsym : ∀ d1 d2, separate hash d1 d2 → separate hash d2 d1)
    by (intros d1 d2 H k1 k2 a H1 H2; eauto).
  destruct (merge_adds_new_pairs_aux cA B h n1 r1 h1) as [Hr1 _]; try done.
  { by apply merge_safe_separate. }
  destruct (merge_adds_new_pairs_aux cB A h1 n2 r2 h2) as [Hr2 _]; try done.
  { by apply merge_safe_separate. }
  intros m.
  assert (locs h2 r2 m =
          union_with (λ X Y, Some (X ∪ Y)) (locs h A m) (locs h B m)) as Hfin.
  { rewrite Hr2.
    rewrite (merge_frame_locs _ _ _ _ _ _ cB HB Hrun1 HcAcB).
    rewrite (merge_frame_locs _ _ _ _ _ _ A HB Hrun1 HcAA).
    rewrite HvB. destruct (locs h A m), (locs h B m); simpl; try done.
    f_equal. set_solver. }
  split; [|done]. rewrite Hfin.
  rewrite (merge_frame_locs _ _ _ _ _ _ r1 HA Hrun2).
  - by rewrite Hr1, HvA.
  - apply (separate_merge cA B h n1 r1 h1); auto.
Qed.

Lemma addML_same_identity db k loc h db' h' m :
  identity k = identity m →
  addML hash db k loc h = (db', h') →
  locs_of hash h' db' m = locs_of hash h db m ∪ {[loc]} ∧
  is_Some (get db' m) ∧
  (keys_distinct hash db → keys_distinct hash db').
Proof.
  intros Hk. apply (key_match_true hash) in Hk. unfold addML, locs_of, locations.
  rewrite <- !(dict_get_congr hash _ k m Hk).
  destruct (get db k) as [a|] eqn:Ha.
  - intros [= <- <-]. rewrite Ha. simpl. by rewrite set_at_insert_eq.
  - simpl. intros [= <- <-]. rewrite dict_get_set_eq. simpl.
    rewrite set_at_insert_eq. split_and!; [set_solver|done|apply keys_distinct_set].
Qed.

(** Insertions for one identity all go to one set object. *)
Lemma addMLs_same_identity mls : ∀ db h db' h' m,
  Forall (λ ml, identity ml.1 = identity m) mls →
  addMLs hash db mls h = (db', h') →
  locs_of hash h' db' m = locs_of hash h db m ∪ list_to_set (map snd mls) ∧
  (mls ≠ [] → is_Some (get db' m)) ∧
  (is_Some (get db m) → is_Some (get db' m)) ∧
  (keys_distinct hash db → keys_distinct hash db').
Proof.
  induction mls as [|[k loc] mls IH]; intros db h db' h' m Hall; simpl.
  { intros [= <- <-]. split_and!; [set_solver|done|done|done]. }
  apply Forall_cons in Hall as [Hk Hall]. simpl in Hk.
  destruct (addML hash db k loc h) as [db1 h1] eqn:E1. intros Hrest.
  destruct (addML_same_identity _ _ _ _ _ _ m Hk E1) as (Hl1 & Hs1 & Hd1).
  destruct (IH _ _ _ _ m Hall Hrest) as (Hl & _ & Hs & Hd).
  split_and!; [rewrite Hl, Hl1; set_solver|auto|auto|auto].
Qed.

(** C5. Two morphemes that agree on [base], [pos], [subPos] and [read]
    are equal and have the same hash, whatever their [inflected]; after an
    [addMLs] that inserts locations for the one and for the other, the
    database has one key for both, and the location set under it is what
    the database held for them before together with all the locations
    inserted. *)
Theorem morpheme_identity m1 m2 :
  base m1 = base m2 → pos m1 = pos m2 → subPos m1 = subPos m2 → read m1 = read m2 →
  Morpheme_eq m1 m2 = true ∧
  Morpheme_hash hash m1 = Morpheme_hash hash m2 ∧
  ∀ db h mls l1 l2 db' h',
    keys_distinct hash db →
    Forall (λ ml, ml.1 = m1 ∨ ml.1 = m2) mls →
    (m1, l1) ∈ mls → (m2, l2) ∈ mls →
    addMLs hash db mls h = (db', h') →
    ∃ a, dict_get hash db' m1 = Some a ∧ dict_get hash db' m2 = Some a ∧
         length (filter (λ e, key_match hash e.1 m1 = true) db') = 1%nat ∧
         set_at h' a = locs_of hash h db m1 ∪ list_to_set (map snd mls) ∧
         l1 ∈ set_at h' a ∧ l2 ∈ set_at h' a.
Proof.
  intros Hb Hp Hs Hr.
  assert (Heq : Morpheme_eq m1 m2 = true) by (by apply Morpheme_eq_fields).
  assert (Hid : identity m1 = identity m2).
  { by rewrite Morpheme_eq_identity, bool_decide_eq_true in Heq. }
  split_and!; [done|by apply Morpheme_eq_hash|].
  intros db h mls l1 l2 db' h' Hkeys Hall H1 H2 Hrun.
  destruct (addMLs_same_identity mls db h db' h' m1) as (Hl & Hsome & _ & Hkeys');
    [|done|].
  { eapply Forall_impl; [exact Hall|]. by intros [k l] [->| ->]. }
  destruct Hsome as [a Ha]; [by intros ->; apply elem_of_nil in H1|].
  assert (Hset : set_at h' a = locs_of hash h db m1 ∪ list_to_set (map snd mls)).
  { rewrite <- Hl. unfold locs_of, locations. by rewrite Ha. }
  exists a. split_and!; [done| |by eapply single_key; auto|done| |].
  - rewrite <- (dict_get_congr hash db' m1 m2); [done|]. by apply key_match_true.
  - rewrite Hset, elem_of_union, elem_of_list_to_set. right.
    apply list_elem_of_fmap. by exists (m1, l1).
  - rewrite Hset, elem_of_union, elem_of_list_to_set. right.
    apply list_elem_of_fmap. by exists (m2, l2).
Qed.

(** C10. After [a.merge(b)], a morpheme that [b] had and [a] had not is
    mapped in [a] to the set object that [b] stores for it; an [addMLs] on
    [a] for this morpheme adds the location to that object, and so to the
    location set of [b]. *)
Theorem merge_shares_set_objects a b h new a' h' m x :
  merge hash a b h = (new, a', h') →
  dict_get hash a m = None →
  dict_get hash b m = Some x →
  dict_get hash a' m = Some x ∧
  ∀ loc a'' h'',
    addMLs hash a' [(m, loc)] h' = (a'', h'') →
    a'' = a' ∧
    locations hash h'' b m = Some (set_at h' x ∪ {[loc]}) ∧
    loc ∈ locs_of hash h'' b m ∧
    (loc ∉ locs_of hash h' b m → locations hash h'' b m ≠ locations hash h' b m).
Proof.
  intros Hrun Ha Hb.
  assert (Ha' : get a' m = Some x).
  { rewrite (merge_loop_dict _ _ _ _ _ _ _ m Hrun). by rewrite Ha. }
  split; [done|]. intros loc a'' h''. simpl. unfold addML. rewrite Ha'.
  intros [= <- <-].
  assert (Hb' : locs (<[x:=set_at h' x ∪ {[loc]}]> h') b m
                = Some (set_at h' x ∪ {[loc]})).
  { unfold locations. rewrite Hb. simpl. by rewrite set_at_insert_eq. }
  split_and!; [done|done| |].
  - unfold locs_of. rewrite Hb'. set_solver.
  - unfold locs_of. rewrite Hb'. unfold locations. rewrite Hb. simpl.
    intros Hnot [= Heq]. apply Hnot. rewrite <- Heq. set_solver.
Qed.

End MorphDbFacts.

(** ** Maturity *)

Lemma sum_Z_perm (l l' : list Z) : l ≡ₚ l' → sum_Z l = sum_Z l'.
Proof. induction 1; simpl; lia. Qed.

Lemma sum_squares_IZR (f : nat → Z) (ls : list nat) :
  IZR (sum_Z (map (λ loc, f loc ^ 2) ls)) =
  fold_right Rplus 0%R (map (λ x, (x * x)%R) (map (λ loc, IZR (f loc)) ls)).
Proof.
  induction ls as [|l ls IH]; simpl; [done|].
  by rewrite plus_IZR, IH, Z.pow_2_r, mult_IZR.
Qed.

Lemma sqrt_25 : sqrt 25 = 5%R.
Proof. replace 25%R with (5 * 5)%R by lra. apply sqrt_square. lra. Qed.

(** C6. For a morpheme of the database, [maturity] is the Euclidean norm of
    the maturities of its locations, a location without the attribute
    counting for 1; with two locations of maturities 3 and 4 it is 5, which
    is neither their sum 7 nor their maximum 4. *)
Theorem maturity_euclidean_norm hash (db : MorphDict) (m : Morpheme)
    (h : SetStore) (objs : ObjTable) (a : nat) :
  dict_get hash db m = Some a →
  maturity hash db m h objs =
    Return (euclidean_norm
              (map (λ loc, match attr_maturity (obj_at objs loc) with
                           | Some v => IZR v
                           | None => 1%R
                           end)
                   (elements (set_at h a)))) ∧
  ∀ l3 l4,
    l3 ≠ l4 → set_at h a = {[l3; l4]} →
    attr_maturity (obj_at objs l3) = Some 3 →
    attr_maturity (obj_at objs l4) = Some 4 →
    maturity hash db m h objs = Return 5%R ∧
    maturity hash db m h objs ≠ Return 7%R ∧
    maturity hash db m h objs ≠ Return 4%R.
Proof.
  intros Hm. unfold maturity. rewrite Hm. split.
  - unfold euclidean_norm. rewrite sum_squares_IZR. do 2 f_equal.
    induction (elements (set_at h a)) as [|l ls IH]; simpl; [done|].
    rewrite IH. unfold getattr_maturity. by destruct (attr_maturity _).
  - intros l3 l4 Hne Hset H3 H4.
    assert (sum_Z (map (λ loc, getattr_maturity (obj_at objs loc) 1 ^ 2)
                       (elements (set_at h a))) = 25) as ->.
    { rewrite (sum_Z_perm _ (map (λ loc, getattr_maturity (obj_at objs loc) 1 ^ 2)
                                 [l3; l4])).
      - simpl. unfold getattr_maturity. by rewrite H3, H4.
      - apply Permutation_map. rewrite Hset.
        rewrite elements_disj_union, !elements_singleton by set_solver. done. }
    rewrite sqrt_25. split_and!; [done| |]; intros [= H]; lra.
Qed.

(** ** Importing a text file *)

Lemma gen_pairs_spec (ms : list Morpheme) (mk : Location) :
  ∀ objs mls objs',
    gen_pairs ms mk objs = (mls, objs') →
    (∀ j o, objs !! j = Some o → objs' !! j = Some o) ∧
    (∀ m, m ∈ ms →
       ∃ loc, (m, loc) ∈ mls ∧ objs' !! loc = Some mk ∧ (length objs ≤ loc)%nat).
Proof.
  induction ms as [|m0 ms IH]; intros objs mls objs'; simpl.
  { intros [= <- <-]. split; [done|]. by intros m ?%elem_of_nil. }
  destruct (gen_pairs ms mk (objs ++ [mk])) as [mls1 objs1] eqn:E.
  intros [= <- <-]. destruct (IH _ _ _ E) as [Hpre Hnew]. split.
  - intros j o Hj. apply Hpre. by apply lookup_app_l_Some.
  - intros m [->|Hin]%elem_of_cons.
    + exists (length objs). split_and!; [apply list_elem_of_here| |done].
      apply Hpre. by rewrite lookup_app_r, Nat.sub_diag.
    + destruct (Hnew m Hin) as (loc & Hloc & Hobj & Hlen).
      exists loc. split_and!; [by apply list_elem_of_further|done|].
      rewrite length_app in Hlen. simpl in Hlen. lia.
Qed.

Section ImportFileFacts.

Variable hash : string * string * string * string → Z.
Variable re_split : string → string → list string.
Variable replace_rules : option (list Rule).
Variable file_bytes : string → option (list Byte.byte).
Variable utf8_decode : list Byte.byte → option string.
Variable splitlines : string → list string.
Variable strip : string → string.
Variable morphemizer : Morphemizer.

Local Abbreviation answer := (cached_or_analyzed morphemizer).

(** Location sets only grow under [addMLs], and hold what was inserted. *)
Lemma addML_grows db k loc h db' h' :
  addML hash db k loc h = (db', h') →
  (∀ m, locs_of hash h db m ⊆ locs_of hash h' db' m) ∧
  loc ∈ locs_of hash h' db' k.
Proof.
  unfold addML, locs_of, locations.
  destruct (dict_get hash db k) as [a|] eqn:Hk.
  - intros [= <- <-]. split.
    + intros m. destruct (dict_get hash db m) as [x|]; simpl; [|set_solver].
      destruct (decide (a = x)) as [->|Hne].
      * rewrite set_at_insert_eq. set_solver.
      * by rewrite set_at_insert_ne.
    + rewrite Hk. simpl. rewrite set_at_insert_eq. set_solver.
  - pose proof (new_set_fresh h {[loc]}) as Hfresh. simpl in *.
    intros [= <- <-]. split.
    + intros m. rewrite dict_get_set.
      destruct (key_match hash k m) eqn:E; simpl.
      * rewrite <- (dict_get_congr hash db k m E), Hk. set_solver.
      * destruct (dict_get hash db m) as [x|]; simpl; [|done].
        destruct (decide (fresh (dom h) = x)) as [<-|Hne].
        -- rewrite (set_at_unallocated h _ Hfresh). set_solver.
        -- by rewrite set_at_insert_ne.
    + rewrite dict_get_set_eq. simpl. rewrite set_at_insert_eq. set_solver.
Qed.

Lemma addMLs_grows mls : ∀ db h db' h',
  addMLs hash db mls h = (db', h') →
  (∀ m, locs_of hash h db m ⊆ locs_of hash h' db' m) ∧
  (∀ k loc, (k, loc) ∈ mls → loc ∈ locs_of hash h' db' k).
Proof.
  induction mls as [|[k0 l0] mls IH]; intros db h db' h'; simpl.
  { intros [= <- <-]. split; [done|]. by intros k loc ?%elem_of_nil. }
  destruct (addML hash db k0 l0 h) as [db1 h1] eqn:E1. intros Hrest.
  destruct (addML_grows _ _ _ _ _ _ E1) as [Hg1 Hin1].
  destruct (IH _ _ _ _ Hrest) as [Hg Hin]. split.
  - intros m. by transitivity (locs_of hash h1 db1 m).
  - intros k loc [[= -> ->]|Hmem]%elem_of_cons; [by apply Hg|by apply Hin].
Qed.

(** Without tags, [getMorphemes] returns the cached sequence or else the
    analyzer's answer, and answers every later request as before. *)
Lemma getMorphemes_direct expression s :
  ∃ s', getMorphemes re_split replace_rules morphemizer expression None s
        = (Return (answer s expression), s') ∧
        ∀ e, answer s' e = answer s e.
Proof.
  unfold cached_or_analyzed.
  destruct (cache s !! (getDescription morphemizer, expression)) as [l|] eqn:Hc.
  { exists s. by rewrite (getMorphemes_hit _ _ _ _ _ _ _ Hc). }
  rewrite getMorphemes_miss_direct by eauto.
  destruct (getMorphemesFromExpr morphemizer expression) as [l|] eqn:Hl;
    [|by exists s].
  eexists. split; [done|]. intros e. simpl.
  destruct (decide (expression = e)) as [<-|Hne].
  - by rewrite lookup_insert_eq, Hc.
  - rewrite lookup_insert_ne; [done|congruence].
Qed.

(** The loop of [importFile] from line index [i] on, when no line is
    answered by [None]: it ends normally and every morpheme of every line
    has a new [TextFile] location carrying the number of the line. *)
Lemma importFile_loop_spec path maturity inp : ∀ i db w,
  Forall (λ line, is_Some (answer (w_cache w) (strip line))) inp →
  ∃ db' w',
    importFile_loop hash re_split replace_rules strip morphemizer path maturity
      i inp db w = (Return tt, db', w') ∧
    (∀ m, locs_of hash (w_sets w) db m ⊆ locs_of hash (w_sets w') db' m) ∧
    (∀ j o, w_objs w !! j = Some o → w_objs w' !! j = Some o) ∧
    (∀ j line ms m,
       inp !! j = Some line →
       answer (w_cache w) (strip line) = Some ms →
       m ∈ ms →
       ∃ loc, loc ∈ locs_of hash (w_sets w') db' m ∧
              w_objs w' !! loc
                = Some (TextFile path (Z.of_nat (i + j) + 1) maturity 1) ∧
              (length (w_objs w) ≤ loc)%nat).
Proof.
  induction inp as [|line inp IH]; intros i db w Hall; simpl.
  { exists db, w. by split_and!. }
  apply Forall_cons in Hall as [[ms Hms] Hall].
  destruct (getMorphemes_direct (strip line) (w_cache w)) as (c & -> & Hc).
  rewrite Hms.
  destruct (gen_pairs ms _ (w_objs w)) as [mls objs] eqn:Egen.
  destruct (addMLs hash db mls (w_sets w)) as [db1 h1] eqn:Eadd.
  destruct (gen_pairs_spec _ _ _ _ _ Egen) as [Hobjs1 Hnew1].
  destruct (addMLs_grows _ _ _ _ _ Eadd) as [Hgrow1 Hin1].
  destruct (IH (S i) db1 (mkWorld c h1 objs)) as (db' & w' & Hrun & Hgrow & Hobjs & Hrec).
  { simpl. eapply Forall_impl; [exact Hall|]. intros l. simpl. by rewrite Hc. }
  simpl in *. exists db', w'. split_and!; [done| | |].
  - intros m. by transitivity (locs_of hash h1 db1 m).
  - eauto.
  - intros [|j] line' ms' m Hj Hms' Hm; simpl in Hj.
    + injection Hj as <-. rewrite Hms in Hms'. injection Hms' as <-.
      destruct (Hnew1 m Hm) as (loc & Hloc & Hobj & Hlen).
      exists loc. split_and!; [by apply Hgrow, Hin1| |done].
      rewrite Nat.add_0_r. by apply Hobjs.
    + destruct (Hrec j line' ms' m Hj) as (loc & Hloc & Hobj & Hlen);
        [by rewrite Hc|done|].
      exists loc. split_and!; [done| |].
      * by replace (i + S j)%nat with (S i + j)%nat by lia.
      * assert (length (w_objs w) ≤ length objs)%nat; [|lia].
        destruct (decide (length (w_objs w) ≤ length objs)%nat); [done|].
        destruct (lookup_lt_is_Some_2 (w_objs w) (length objs)) as [o Ho]; [lia|].
        apply Hobjs1, lookup_lt_Some in Ho. lia.
Qed.


End ImportFileFacts.

(** ** The theorems at work on small databases *)

(** Side conditions on the set objects of explicit dictionaries. *)
Ltac explicit_dicts :=
  repeat intro; simpl in *;
  repeat match goal with
  | H : context [key_match ?hash ?k ?m] |- _ =>
      lazymatch goal with
      | _ : key_match hash k m = _ |- _ => fail
      | _ => destruct (key_match hash k m) eqn:?
      end
  | |- context [key_match ?hash ?k ?m] =>
      lazymatch goal with
      | _ : key_match hash k m = _ |- _ => fail
      | _ => destruct (key_match hash k m) eqn:?
      end
  | H : key_match _ _ _ = true |- _ => rewrite H in *
  | H : key_match _ _ _ = false |- _ => rewrite H in *
  end;
  simplify_eq; try done;
  rewrite ?key_match_identity in *; repeat case_bool_decide; simplify_eq;
  try done; try (unfold identity in *; simpl in *; congruence).

Lemma triple_eta {A B C : Type} (p : A * B * C) : p = (p.1.1, p.1.2, p.2).
Proof. by destruct p as [[? ?] ?]. Qed.


(** The same two databases and a copy of each, merged both ways: the counts
    are 2 and 1, the contents agree. *)
Lemma merge_commutative_witness :
  let A := [(aruku_te, 0%nat)] in
  let B := [(aruku_masu, 1%nat); (inu, 2%nat)] in
  let cA := [(aruku_te, 3%nat)] in
  let cB := [(aruku_masu, 4%nat); (inu, 5%nat)] in
  let h : SetStore :=
    {[ 0%nat := {[10%nat]}; 1%nat := {[11%nat]}; 2%nat := {[12%nat]};
       3%nat := {[10%nat]}; 4%nat := {[11%nat]}; 5%nat := {[12%nat]} ]} in
  let r1 := merge length_hash cA B h in
  let r2 := merge length_hash cB A r1.2 in
  r1.1.1 = 2 ∧ r2.1.1 = 1 ∧
  ∀ m, locations length_hash r2.2 r1.1.2 m = locations length_hash r2.2 r2.1.2 m.
Proof.
  intros A B cA cB h r1 r2.
  split_and!; [by vm_compute|by vm_compute|]. intros m.
  apply (merge_commutative length_hash A B cA cB h r1.1.1 r1.1.2 r1.2
           r2.1.1 r2.1.2 r2.2);
    try apply triple_eta; try (by vm_compute);
    unfold copy_of, unshared, separate, locations, A, B, cA, cB;
    try split_and!; try (by vm_compute); explicit_dicts.
Defined.

(** A database that receives [aruku] once as inflected in the te-form and
    once as inflected before [masu]. *)
Lemma morpheme_identity_witness :
  let r := addMLs length_hash [] [(aruku_te, 7%nat); (aruku_masu, 8%nat)] ∅ in
  inflected aruku_te ≠ inflected aruku_masu ∧
  Morpheme_eq aruku_te aruku_masu = true ∧
  Morpheme_hash length_hash aruku_te = Morpheme_hash length_hash aruku_masu ∧
  length r.1 = 1%nat ∧
  ∃ a, dict_get length_hash r.1 aruku_te = Some a ∧
       dict_get length_hash r.1 aruku_masu = Some a ∧
       set_at r.2 a = {[7%nat; 8%nat]}.
Proof.
  intros r.
  destruct (morpheme_identity length_hash aruku_te aruku_masu
              eq_refl eq_refl eq_refl eq_refl) as (Heq & Hhash & Hadd).
  destruct (Hadd [] ∅ [(aruku_te, 7%nat); (aruku_masu, 8%nat)] 7%nat 8%nat r.1 r.2)
    as (a & H1 & H2 & _ & Hset & _).
  - done.
  - repeat (apply Forall_cons; split; [simpl; auto|]). by apply Forall_nil.
  - apply list_elem_of_here.
  - apply list_elem_of_further, list_elem_of_here.
  - apply surjective_pairing.
  - split_and!; [done|done|done|by vm_compute|]. exists a.
    split_and!; [done|done|]. rewrite Hset. by vm_compute.
Defined.

(** An empty database merges [b] and then receives a location for [inu]:
    the location shows up in [b]. *)
Lemma merge_shares_set_objects_witness :
  let b := [(inu, 0%nat)] in
  let h : SetStore := {[ 0%nat := {[10%nat]} ]} in
  let r := merge length_hash [] b h in
  let r' := addMLs length_hash r.1.2 [(inu, 11%nat)] r.2 in
  locations length_hash h b inu = Some {[10%nat]} ∧
  dict_get length_hash r.1.2 inu = dict_get length_hash b inu ∧
  locations length_hash r'.2 b inu = Some {[10%nat; 11%nat]}.
Proof.
  intros b h r r'.
  destruct (merge_shares_set_objects length_hash [] b h r.1.1 r.1.2 r.2 inu 0%nat)
    as [Hsame Hadd]; [apply triple_eta|done|done|].
  destruct (Hadd 11%nat r'.1 r'.2) as (_ & Hlocs & _); [apply surjective_pairing|].
  split_and!; [by vm_compute|by rewrite Hsame|].
  rewrite Hlocs. by vm_compute.
Defined.

(** A text line of maturity 3 and a note whose cards have maturities 4 and
    2. *)
Lemma maturity_euclidean_norm_witness :
  let db := [(inu, 0%nat)] in
  let h : SetStore := {[ 0%nat := {[0%nat; 1%nat]} ]} in
  let objs := [TextFile_init "pets.txt" 1 3 None;
               AnkiDeck_init 42 "Expression" "inu" "g" [4; 2] None] in
  maturity length_hash db inu h objs = Return 5%R.
Proof.
  intros db h objs.
  destruct (maturity_euclidean_norm length_hash db inu h objs 0%nat) as [_ H34];
    [done|].
  by destruct (H34 0%nat 1%nat) as (H5 & _ & _).
Defined.

